(** * idrive_backup: the tree walker, the batch uploader and the scheduler

    A shallow embedding of [main.py]: [upload_files] (lines 94-150),
    the walk of [run_backup] (lines 153-196) and the scheduling loop
    (lines 240-255), with the properties of the specification proved
    about them.

    Conventions of the embedding.
    - A [pathlib] path is its root and the list of its name components,
      which is how [PurePosixPath] compares paths.
    - The file system, the upload utility and the builtin [int] are
      oracles gathered in one record; every theorem holds for all of them.
    - Python exceptions are values of [exn]; a routine returns its outcome
      together with the state it leaves behind, since globals and the
      shared [files] list keep their mutations when an exception
      propagates.
    - A finite float is the rational it stands for: an int is rounded to
      53 significant bits when it becomes a float, and the conversion or
      division of an int too large for a float raises [OverflowError].
    - A line written to the log file is a structured [event] that holds
      the values formatted; the text formatting ([{:.1f}], [{:%c}]) is
      not modelled.  Console output ([print]) is not modelled. *)

From Stdlib Require Import List ZArith QArith Bool String Ascii Lia Permutation.
Import ListNotations.

Local Open Scope string_scope.
Local Open Scope list_scope.
Local Open Scope Z_scope.

(** ** Paths *)

Module PathLib.

(** [PurePosixPath]: the drive is always empty, the root is [""], ["/"]
    or ["//"], and the remaining parts are the names. *)
Record path : Type := mkpath { root : string; names : list string }.

Fixpoint names_eqb (l1 l2 : list string) : bool :=
  match l1, l2 with
  | [], [] => true
  | x :: r1, y :: r2 => String.eqb x y && names_eqb r1 r2
  | _, _ => false
  end.

(** [p == q] on paths. *)
Definition path_eqb (p q : path) : bool :=
  String.eqb (root p) (root q) && names_eqb (names p) (names q).

(** [split_slash s acc]: the components of [s] between slashes, [acc]
    being the component read so far. *)
Fixpoint split_slash (s : string) (acc : string) : list string :=
  match s with
  | EmptyString => [acc]
  | String c r =>
      if Ascii.eqb c "/" then acc :: split_slash r "" else split_slash r (String.append acc (String c ""))
  end.

(** The root [pathlib] parses off a POSIX path string: exactly two
    leading slashes are kept, one or three and more are a single one. *)
Definition parse_root (s : string) : string :=
  match s with
  | String "/" (String "/" (String "/" _)) => "/"
  | String "/" (String "/" _) => "//"
  | String "/" _ => "/"
  | _ => ""
  end.

(** [Path(s)]: empty components and ["."] components are dropped,
    [".."] components are kept. *)
Definition Path (s : string) : path :=
  {| root := parse_root s;
     names := filter (fun c => negb (String.eqb c "" || String.eqb c "."))
                     (split_slash s "") |}.

(** [p.parents]: the logical ancestors, nearest first; entry [i] keeps
    all but the last [i + 1] names. *)
Definition parents (p : path) : list path :=
  map (fun i => {| root := root p;
                   names := firstn (List.length (names p) - 1 - i) (names p) |})
      (seq 0 (List.length (names p))).

(** [e in p.parents] *)
Definition in_parents (e p : path) : bool := existsb (path_eqb e) (parents p).

(** The specification's words: [p] is a descendant of [e] when it lies
    strictly below it. *)
Definition descendant (p e : path) : Prop :=
  root p = root e /\ exists suffix, suffix <> [] /\ names p = names e ++ suffix.

End PathLib.
Export PathLib.

(** ** Exceptions and outcomes *)

Inductive exn : Type :=
| FileNotFoundError
| UnboundLocalError
| TypeError
| ValueError
| CalledProcessError
| ParseError
| OSError
| OverflowError.

Inductive result (A : Type) : Type :=
| Ok (a : A)
| Raise (e : exn).
Arguments Ok {A} a.
Arguments Raise {A} e.

(** ** Records of the upload utility and log lines *)

(** One [<item .../>] element of the utility's output, with the attributes
    the uploader reads; [None] is what [item.get] returns for an absent
    attribute. *)
Record item : Type := mkitem {
  per : option string;
  fname : option string;
  trf_type : option string;
  rate_trf : option string;
  tottrf_sz : option string }.

Inductive event : Type :=
| Starting
| SkipBrokenLink (p : path)
| SkipExcluded (p e : path)
| SkipRemoved (p : path)
| SkipNeither (p : path)
| Transferred (size : Q) (unit : string) (rate file_name : option string)
| FailedToBackup (it : item)
| FinishedSuccessful (backed_up : Z)
| FinishedIncomplete (backed_up failed : Z).

(** ** The environment *)

(** What the program asks of its environment.  [resolve], [is_file],
    [is_dir] and [iterdir] are the [pathlib] methods; [run_util_items n b]
    is the answer of the utility to the upload call number [n] of the
    run, made with a list file holding the batch [b]; [int] is the
    builtin applied to an attribute value. *)
Record oracle : Type := mkoracle {
  resolve : path -> result path;
  is_file : path -> bool;
  is_dir : path -> bool;
  iterdir : path -> result (list path);
  run_util_items : nat -> list path -> result (list item);
  int : option string -> result Z }.

(** ** The state of a run *)

Inductive status : Type :=
| Walking
| Returned
| Raised (e : exn).

(** The locals [includes], [include] and [files] of [run_backup], the
    globals, and two records of what happened: [uploaded], the batches
    handed to the utility, oldest first, and [transfer_sizes], the values
    the local [transfer_size] of [upload_files] has taken, oldest first.
    [include] is [None] while the local is unbound. *)
Record state : Type := mkstate {
  includes : list path;
  include : option path;
  files : list path;
  logfile : list event;
  files_considered_for_backup : Z;
  files_backed_up_now : Z;
  files_already_present : Z;
  files_failed_to_backup : Z;
  uploaded : list (list path);
  transfer_sizes : list Z;
  run_status : status }.

Definition set_includes (v : list path) (s : state) : state :=
  mkstate v (include s) (files s) (logfile s) (files_considered_for_backup s)
    (files_backed_up_now s) (files_already_present s) (files_failed_to_backup s)
    (uploaded s) (transfer_sizes s) (run_status s).

Definition set_include (v : option path) (s : state) : state :=
  mkstate (includes s) v (files s) (logfile s) (files_considered_for_backup s)
    (files_backed_up_now s) (files_already_present s) (files_failed_to_backup s)
    (uploaded s) (transfer_sizes s) (run_status s).

Definition set_files (v : list path) (s : state) : state :=
  mkstate (includes s) (include s) v (logfile s) (files_considered_for_backup s)
    (files_backed_up_now s) (files_already_present s) (files_failed_to_backup s)
    (uploaded s) (transfer_sizes s) (run_status s).

(** [logfile.write(...)] *)
Definition write (ev : event) (s : state) : state :=
  mkstate (includes s) (include s) (files s) (logfile s ++ [ev])
    (files_considered_for_backup s)
    (files_backed_up_now s) (files_already_present s) (files_failed_to_backup s)
    (uploaded s) (transfer_sizes s) (run_status s).

Definition incr_considered (s : state) : state :=
  mkstate (includes s) (include s) (files s) (logfile s)
    (files_considered_for_backup s + 1)
    (files_backed_up_now s) (files_already_present s) (files_failed_to_backup s)
    (uploaded s) (transfer_sizes s) (run_status s).

Definition incr_backed_up_now (s : state) : state :=
  mkstate (includes s) (include s) (files s) (logfile s)
    (files_considered_for_backup s)
    (files_backed_up_now s + 1) (files_already_present s) (files_failed_to_backup s)
    (uploaded s) (transfer_sizes s) (run_status s).

Definition incr_already_present (s : state) : state :=
  mkstate (includes s) (include s) (files s) (logfile s)
    (files_considered_for_backup s)
    (files_backed_up_now s) (files_already_present s + 1) (files_failed_to_backup s)
    (uploaded s) (transfer_sizes s) (run_status s).

Definition incr_failed (s : state) : state :=
  mkstate (includes s) (include s) (files s) (logfile s)
    (files_considered_for_backup s)
    (files_backed_up_now s) (files_already_present s) (files_failed_to_backup s + 1)
    (uploaded s) (transfer_sizes s) (run_status s).

Definition record_upload (batch : list path) (s : state) : state :=
  mkstate (includes s) (include s) (files s) (logfile s)
    (files_considered_for_backup s)
    (files_backed_up_now s) (files_already_present s) (files_failed_to_backup s)
    (uploaded s ++ [batch]) (transfer_sizes s) (run_status s).

Definition record_transfer_size (v : Z) (s : state) : state :=
  mkstate (includes s) (include s) (files s) (logfile s)
    (files_considered_for_backup s)
    (files_backed_up_now s) (files_already_present s) (files_failed_to_backup s)
    (uploaded s) (transfer_sizes s ++ [v]) (run_status s).

Definition set_status (v : status) (s : state) : state :=
  mkstate (includes s) (include s) (files s) (logfile s)
    (files_considered_for_backup s)
    (files_backed_up_now s) (files_already_present s) (files_failed_to_backup s)
    (uploaded s) (transfer_sizes s) v.

(** ** [upload_files] *)

Definition attr_is (a : option string) (v : string) : bool :=
  match a with
  | Some x => String.eqb x v
  | None => false
  end.

(** *** Floats

    A finite float is the rational it stands for.  An int too large for
    a float makes the conversion, and the division of an int, raise
    [OverflowError]. *)

(** For [0 <= n]: [n] rounded to 53 significant bits, a tie going to the
    even neighbour.  This is the integer value of the float nearest to
    [n]. *)
Definition round53 (n : Z) : Z :=
  let bits := Z.log2 n + 1 in
  if bits <=? 53 then n
  else
    let shift := bits - 53 in
    let q := n / 2 ^ shift in
    let r := n mod 2 ^ shift in
    let half := 2 ^ (shift - 1) in
    let q := if (half <? r) || ((r =? half) && Z.odd q) then q + 1 else q in
    q * 2 ^ shift.

Definition nearest_double (n : Z) : Z :=
  if n <? 0 then - round53 (- n) else round53 n.

(** [float(n)] for an int [n], as the format [{:.1f}] converts an int. *)
Definition float_of_int (n : Z) : result Q :=
  let m := nearest_double n in
  if 2 ^ 1024 <=? Z.abs m then Raise OverflowError else Ok (inject_Z m).

(** [n / 1024] for an int [n]: the quotient, correctly rounded; 1024
    being a power of two, that is the float nearest to [n], divided. *)
Definition int_div_1024 (n : Z) : result Q :=
  let m := nearest_double n in
  if 2 ^ 1034 <=? Z.abs m then Raise OverflowError
  else Ok (Qdiv (inject_Z m) (1024 # 1)).

(** The value of [size]: an int until the first division, a float
    afterwards. *)
Inductive number : Type :=
| Int (z : Z)
| Float (f : Q).

(** [size > 1024] on a float *)
Definition exceeds_1024 (size : Q) : bool := negb (Qle_bool size (1024 # 1)).

(** [size > 1024] *)
Definition gt_1024 (size : number) : bool :=
  match size with
  | Int z => 1024 <? z
  | Float f => exceeds_1024 f
  end.

(** [size / 1024].  A float is only divided when it exceeds 1024, where
    the division by 1024 is exact. *)
Definition div_1024 (size : number) : result number :=
  match size with
  | Int z =>
      match int_div_1024 z with
      | Ok f => Ok (Float f)
      | Raise e => Raise e
      end
  | Float f => Ok (Float (Qdiv f (1024 # 1)))
  end.

(** The float that [{:.1f}] renders for [size] at line 144. *)
Definition format_1f (size : number) : result Q :=
  match size with
  | Int z => float_of_int z
  | Float f => Ok f
  end.

(** One of the three statements [if size > 1024: size /= 1024; unit = u]
    of lines 132-142. *)
Definition scale_step (u : string) (size_unit : number * string)
  : result (number * string) :=
  let '(size, unit) := size_unit in
  if gt_1024 size then
    match div_1024 size with
    | Ok size => Ok (size, u)
    | Raise e => Raise e
    end
  else Ok (size, unit).

(** Lines 129-142: the three successive tests. *)
Definition scale (transfer_size : Z) : result (number * string) :=
  let size := Int transfer_size in
  let unit := "B" in
  match scale_step "kB" (size, unit) with
  | Raise e => Raise e
  | Ok size_unit =>
      match scale_step "MB" size_unit with
      | Raise e => Raise e
      | Ok size_unit => scale_step "GB" size_unit
      end
  end.

(** What line 144 puts in the log for a scaled size: the float that is
    rendered, and the unit. *)
Definition logged (scaled : result (number * string)) : result (Q * string) :=
  match scaled with
  | Raise e => Raise e
  | Ok (size, unit) =>
      match format_1f size with
      | Ok shown => Ok (shown, unit)
      | Raise e => Raise e
      end
  end.

(** The specification's words: divide by 1024 and step to the next unit
    while the value exceeds 1024 and a next unit is left. *)
Fixpoint scale_while (next_units : list string) (size : number) (unit : string)
  : result (number * string) :=
  match next_units with
  | [] => Ok (size, unit)
  | u :: later =>
      if gt_1024 size then
        match div_1024 size with
        | Ok size => scale_while later size u
        | Raise e => Raise e
        end
      else Ok (size, unit)
  end.

Definition scale_spec (transfer_size : Z) : result (number * string) :=
  scale_while ["kB"; "MB"; "GB"] (Int transfer_size) "B".

(** The same loop in exact arithmetic, on rationals. *)
Fixpoint scale_exact_while (next_units : list string) (size : Q) (unit : string)
  : Q * string :=
  match next_units with
  | [] => (size, unit)
  | u :: later =>
      if exceeds_1024 size then scale_exact_while later (Qdiv size (1024 # 1)) u
      else (size, unit)
  end.

Definition scale_exact (transfer_size : Z) : Q * string :=
  scale_exact_while ["kB"; "MB"; "GB"] (inject_Z transfer_size) "B".

Section Uploader.

Variable O : oracle.

(** Lines 115-150, the body of the loop over the records: the result is
    the new value of [last_total_transfer_size].  An exception of lines
    133-144 leaves the record considered and not yet counted in a
    class. *)
Definition upload_item (it : item) (last_total_transfer_size : Z) (s : state)
  : result Z * state :=
  if negb (attr_is (per it) "100%") then (Ok last_total_transfer_size, s)
  else
    let file_name := fname it in
    let transfer_type := trf_type it in
    let transfer_rate := rate_trf it in
    match int O (tottrf_sz it) with
    | Raise e => (Raise e, s)
    | Ok total_transfer_size =>
        let transfer_size := total_transfer_size - last_total_transfer_size in
        let s := record_transfer_size transfer_size s in
        let s := incr_considered s in
        if attr_is transfer_type "FULL" || attr_is transfer_type "INCREMENTAL" then
          match logged (scale transfer_size) with
          | Raise e => (Raise e, s)
          | Ok (size, unit) =>
              let s := write (Transferred size unit transfer_rate file_name) s in
              (Ok total_transfer_size, incr_backed_up_now s)
          end
        else if attr_is transfer_type "FILE IN SYNC" then
          (Ok total_transfer_size, incr_already_present s)
        else
          let s := write (FailedToBackup it) s in
          (Ok total_transfer_size, incr_failed s)
    end.

(** Lines 114-150: [for item in items]. *)
Fixpoint upload_items (items : list item) (last_total_transfer_size : Z)
  (s : state) : result unit * state :=
  match items with
  | [] => (Ok tt, s)
  | it :: rest =>
      match upload_item it last_total_transfer_size s with
      | (Ok last', s') => upload_items rest last' s'
      | (Raise e, s') => (Raise e, s')
      end
  end.

(** Lines 94-150.  The list passed in is the caller's [files] object, so
    [files.clear()] empties the caller's list. *)
Definition upload_files (s : state) : result unit * state :=
  let listfile := files s in
  let s := set_files [] s in
  let call := List.length (uploaded s) in
  let s := record_upload listfile s in
  match run_util_items O call listfile with
  | Raise e => (Raise e, s)
  | Ok items => upload_items items 0 s
  end.

End Uploader.

(** ** Vocabulary of the statements about a batch response *)

(** The record's completion attribute is ["100%"]. *)
Definition is_complete (it : item) : bool := attr_is (per it) "100%".

Definition is_transfer (it : item) : bool :=
  attr_is (trf_type it) "FULL" || attr_is (trf_type it) "INCREMENTAL".

Definition is_in_sync (it : item) : bool := attr_is (trf_type it) "FILE IN SYNC".

(** The number of records of a response that satisfy [f]. *)
Definition count (f : item -> bool) (items : list item) : Z :=
  Z.of_nat (List.length (filter f items)).

(** The cumulative totals of the complete records of a response, in
    the order of the response. *)
Definition complete_totals (O : oracle) (items : list item) : list Z :=
  flat_map (fun it =>
              if is_complete it then
                match int O (tottrf_sz it) with
                | Ok total => [total]
                | Raise _ => []
                end
              else []) items.

(** The total before position [i] of a list of cumulative totals: zero
    in front of the first. *)
Definition previous_total (totals : list Z) (i : nat) : Z :=
  match i with
  | 0%nat => 0
  | S j => nth j totals 0
  end.

(** The differences of consecutive cumulative totals, the first one
    taken against [previous]. *)
Fixpoint differences (previous : Z) (totals : list Z) : list Z :=
  match totals with
  | [] => []
  | total :: later => (total - previous) :: differences total later
  end.

(** Every complete record of the response carries a running total that
    [int] accepts. *)
Definition well_formed (O : oracle) (items : list item) : Prop :=
  forall it, In it items -> is_complete it = true ->
             exists total, int O (tottrf_sz it) = Ok total.

(** Every running total of a complete record is of a magnitude below
    2^1022, so that no derived size is too large for a float. *)
Definition in_range (O : oracle) (items : list item) : Prop :=
  forall total, In total (complete_totals O items) -> Z.abs total < 2 ^ 1022.

(** ** The walk of [run_backup] *)

(** [l.pop()] on a non-empty list: the rest and the last element. *)
Fixpoint pop {A : Type} (l : list A) : option (list A * A) :=
  match l with
  | [] => None
  | x :: r =>
      match pop r with
      | None => Some ([], x)
      | Some (r', last) => Some (x :: r', last)
      end
  end.

(** Line 178, the test of one exclude. *)
Definition matches (include_ : path) (exclude : path) : bool :=
  path_eqb exclude include_ || in_parents exclude include_.

(** Lines 177-180: the exclude the loop breaks on, if any. *)
Definition find_exclude (excludes : list path) (include_ : path) : option path :=
  find (matches include_) excludes.

(** Whether the loop over the excludes ends on [break], so that the
    [else] clause of the [for] statement is not run. *)
Definition is_skipped (excludes : list path) (include_ : path) : bool :=
  match find_exclude excludes include_ with
  | Some _ => true
  | None => false
  end.

(** The paths appended to [files] since the start of the run, oldest
    first: those of the batches already handed over, then the pending
    ones. *)
Definition emitted (s : state) : list path := List.concat (uploaded s) ++ files s.

(** While the walk goes on, fewer than 1000 files are pending and every
    batch handed over so far held exactly 1000. *)
Definition batching_inv (s : state) : Prop :=
  match run_status s with
  | Walking =>
      (List.length (files s) < 1000)%nat /\
      Forall (fun b => List.length b = 1000%nat) (uploaded s)
  | _ => Forall (fun b => (List.length b <= 1000)%nat) (uploaded s)
  end.

Section Walker.

Variable O : oracle.
Variable excludes : list path.

(** Lines 172-175: the value of [include] after the [try] statement. *)
Definition try_resolve (popped : path) (s : state) : result path * state :=
  match resolve O popped with
  | Ok resolved => (Ok resolved, set_include (Some resolved) s)
  | Raise FileNotFoundError =>
      match include s with
      | Some stale => (Ok stale, write (SkipBrokenLink stale) s)
      | None => (Raise UnboundLocalError, s)
      end
  | Raise e => (Raise e, s)
  end.

(** Lines 177-193. *)
Definition visit (include_ : path) (s : state) : result unit * state :=
  match find_exclude excludes include_ with
  | Some exclude => (Ok tt, write (SkipExcluded include_ exclude) s)
  | None =>
      if is_file O include_ then
        let s := set_files (files s ++ [include_]) s in
        if Nat.eqb (List.length (files s)) 1000 then upload_files O s
        else (Ok tt, s)
      else if is_dir O include_ then
        match iterdir O include_ with
        | Ok children => (Ok tt, set_includes (includes s ++ children) s)
        | Raise FileNotFoundError => (Ok tt, write (SkipRemoved include_) s)
        | Raise e => (Raise e, s)
        end
      else (Ok tt, write (SkipNeither include_) s)
  end.

(** Lines 172-193, one turn of the [while] loop with [popped] taken off
    the work list. *)
Definition iteration (rest : list path) (popped : path) (s : state)
  : result unit * state :=
  match try_resolve popped (set_includes rest s) with
  | (Ok include_, s') => visit include_ s'
  | (Raise e, s') => (Raise e, s')
  end.

(** Lines 195-203, once the work list is empty. *)
Definition after_walk (s : state) : result unit * state :=
  let '(r, s) :=
    if Nat.ltb 0 (List.length (files s)) then upload_files O s else (Ok tt, s) in
  match r with
  | Raise e => (Raise e, s)
  | Ok _ =>
      if files_failed_to_backup s =? 0
      then (Ok tt, write (FinishedSuccessful (files_backed_up_now s)) s)
      else (Ok tt, write (FinishedIncomplete (files_backed_up_now s)
                                             (files_failed_to_backup s)) s)
  end.

(** One step of a run: a turn of the loop while the work list is not
    empty, then the code after the loop.  An exception ends the run. *)
Definition step (s : state) : state :=
  match run_status s with
  | Walking =>
      match pop (includes s) with
      | Some (rest, popped) =>
          match iteration rest popped s with
          | (Ok _, s') => s'
          | (Raise e, s') => set_status (Raised e) s'
          end
      | None =>
          match after_walk s with
          | (Ok _, s') => set_status Returned s'
          | (Raise e, s') => set_status (Raised e) s'
          end
      end
  | _ => s
  end.

Fixpoint steps (fuel : nat) (s : state) : state :=
  match fuel with
  | 0%nat => s
  | S n => steps n (step s)
  end.

End Walker.

(** The [includes] and [excludes] entries of [config.yaml]. *)
Record config : Type := mkconfig {
  config_includes : list string;
  config_excludes : list string }.

(** Lines 159-169. *)
Definition start (c : config) : state :=
  {| includes := map Path (config_includes c);
     include := None;
     files := [];
     logfile := [Starting];
     files_considered_for_backup := 0;
     files_backed_up_now := 0;
     files_already_present := 0;
     files_failed_to_backup := 0;
     uploaded := [];
     transfer_sizes := [];
     run_status := Walking |}.

(** [run_backup] up to line 203, for at most [fuel] steps. *)
Definition run_backup (O : oracle) (c : config) (fuel : nat) : state :=
  steps O (map Path (config_excludes c)) fuel (start c).

(** ** The scheduling loop *)

(** A [datetime] and a [timedelta] are whole numbers of microseconds. *)
Definition datetime : Type := Z.
Definition timedelta : Type := Z.

Inductive action : Type :=
| SleepAndRetry
| StartRun.

(** Lines 241-255: one turn of [while True].  [lastrunfile] is the time
    read back from the file [lastrun], [None] when the file is missing;
    the result is what the turn does and the file it leaves. *)
Definition schedule (lastrunfile : option datetime) (interval : timedelta)
  (now : datetime) : action * option datetime :=
  let lastrun := lastrunfile in
  match lastrun with
  | Some t =>
      if t + interval >? now then (SleepAndRetry, lastrunfile)
      else (StartRun, Some now)
  | None => (StartRun, Some now)
  end.

(** ** Canonical paths *)

(** [p] is canonical when resolving it gives [p] back. *)
Definition canonicalb (O : oracle) (p : path) : bool :=
  match resolve O p with
  | Ok q => path_eqb q p
  | Raise _ => false
  end.

(** What resolution guarantees of its results: a resolved path resolves
    to itself, and so does each of its ancestors. *)
Definition resolves_canonically (O : oracle) : Prop :=
  (forall p q, resolve O p = Ok q -> resolve O q = Ok q) /\
  (forall q a, resolve O q = Ok q -> In a (parents q) -> resolve O a = Ok a).

(** The value of [include] is unbound or the result of a resolution. *)
Definition include_resolved (O : oracle) (s : state) : Prop :=
  match include s with
  | Some q => resolve O q = Ok q
  | None => True
  end.

(** ** A small environment for the examples *)

Module Demo.

Definition digit_of (c : ascii) : option Z :=
  let n := nat_of_ascii c in
  if (Nat.leb 48 n && Nat.leb n 57)%bool then Some (Z.of_nat (n - 48)) else None.

Fixpoint digits (s : string) (acc : Z) : option Z :=
  match s with
  | EmptyString => Some acc
  | String c r =>
      match digit_of c with
      | Some d => digits r (10 * acc + d)
      | None => None
      end
  end.

(** The builtin [int] on an attribute value, for plain decimal literals
    with an optional sign; an absent attribute is a [TypeError]. *)
Definition int_decimal (a : option string) : result Z :=
  match a with
  | None => Raise TypeError
  | Some EmptyString => Raise ValueError
  | Some (String c r) =>
      let '(negative, body) :=
        if Ascii.eqb c "-" then (true, r)
        else if Ascii.eqb c "+" then (false, r)
        else (false, String c r) in
      match body with
      | EmptyString => Raise ValueError
      | _ =>
          match digits body 0 with
          | Some n => Ok (if negative then - n else n)
          | None => Raise ValueError
          end
      end
  end.

(** A directory [/a] with the regular files [f1.txt] and [f2.txt], a
    symbolic link [/link] to [/a], and a name [/b] whose resolution
    fails. *)
Definition demo_resolve (p : path) : result path :=
  match names p with
  | [] => Ok (mkpath "/" [])
  | h :: r =>
      if String.eqb h "b" then Raise FileNotFoundError
      else if String.eqb h "link" then Ok (mkpath "/" ("a" :: r))
      else Ok (mkpath "/" (h :: r))
  end.

Definition demo_is_file (p : path) : bool :=
  path_eqb p (Path "/a/f1.txt") || path_eqb p (Path "/a/f2.txt").

Definition demo_is_dir (p : path) : bool := path_eqb p (Path "/a").

Definition demo_iterdir (p : path) : result (list path) :=
  if path_eqb p (Path "/a") then Ok [Path "/a/f1.txt"; Path "/a/f2.txt"]
  else Raise OSError.

(** The answer of the utility: a progress record, then a full transfer
    with a running total of 1000 and a file in sync with a running total
    of 1500. *)
Definition demo_items : list item :=
  [ mkitem (Some "50%") (Some "a/f1.txt") (Some "FULL") (Some "1kB/s") (Some "500");
    mkitem (Some "100%") (Some "a/f1.txt") (Some "FULL") (Some "1kB/s") (Some "1000");
    mkitem (Some "100%") (Some "a/f2.txt") (Some "FILE IN SYNC") (Some "0kB/s")
           (Some "1500") ].

Definition demo : oracle :=
  {| resolve := demo_resolve;
     is_file := demo_is_file;
     is_dir := demo_is_dir;
     iterdir := demo_iterdir;
     run_util_items := fun _ _ => Ok demo_items;
     int := int_decimal |}.

(** The same environment with a utility whose running totals go down. *)
Definition decreasing_items : list item :=
  [ mkitem (Some "100%") (Some "a/f1.txt") (Some "FULL") (Some "1kB/s") (Some "1500");
    mkitem (Some "100%") (Some "a/f2.txt") (Some "FULL") (Some "1kB/s") (Some "1000") ].

Definition demo_decreasing : oracle :=
  {| resolve := demo_resolve;
     is_file := demo_is_file;
     is_dir := demo_is_dir;
     iterdir := demo_iterdir;
     run_util_items := fun _ _ => Ok decreasing_items;
     int := int_decimal |}.

(** The same environment with a utility that exits with an error. *)
Definition demo_failing : oracle :=
  {| resolve := demo_resolve;
     is_file := demo_is_file;
     is_dir := demo_is_dir;
     iterdir := demo_iterdir;
     run_util_items := fun _ _ => Raise CalledProcessError;
     int := int_decimal |}.

(** A directory [/big] holding [n] regular files and nothing else. *)
Definition big_files (n : nat) : list path :=
  map (fun i => mkpath "/" ["big"; String.append "f" (String (ascii_of_nat i) "")])
      (seq 0 n).

Definition big (n : nat) : oracle :=
  {| resolve := fun p => Ok p;
     is_file := fun p => match names p with [_; _] => true | _ => false end;
     is_dir := fun p => path_eqb p (Path "/big");
     iterdir := fun p => if path_eqb p (Path "/big") then Ok (big_files n)
                         else Raise OSError;
     run_util_items := fun _ _ => Ok [];
     int := int_decimal |}.

End Demo.

(** ** Vocabulary of the statements about a whole run *)

(** The four counters add up and none is negative. *)
Definition balanced (s : state) : Prop :=
  files_considered_for_backup s =
    files_backed_up_now s + files_already_present s + files_failed_to_backup s /\
  0 <= files_backed_up_now s /\ 0 <= files_already_present s /\
  0 <= files_failed_to_backup s.

(** The counters as an exception in the middle of a record leaves them:
    the number considered is the sum of the other three or one more. *)
Definition nearly_balanced (s : state) : Prop :=
  (files_considered_for_backup s =
     files_backed_up_now s + files_already_present s + files_failed_to_backup s \/
   files_considered_for_backup s =
     files_backed_up_now s + files_already_present s + files_failed_to_backup s + 1) /\
  0 <= files_backed_up_now s /\ 0 <= files_already_present s /\
  0 <= files_failed_to_backup s.

(** The counters after a routine: balanced when it has returned, nearly
    so when it has raised. *)
Definition settled {A : Type} (r : result A) (s : state) : Prop :=
  match r with
  | Ok _ => balanced s
  | Raise _ => nearly_balanced s
  end.

(** The counters are balanced unless the run has ended on an exception. *)
Definition counters_inv (s : state) : Prop :=
  match run_status s with
  | Raised _ => nearly_balanced s
  | _ => balanced s
  end.

(** From [s] to [s'] the counters have not gone down and the log, the
    record of the batches and the record of the emitted paths have only
    been extended. *)
Definition extends (s s' : state) : Prop :=
  files_considered_for_backup s <= files_considered_for_backup s' /\
  files_backed_up_now s <= files_backed_up_now s' /\
  files_already_present s <= files_already_present s' /\
  files_failed_to_backup s <= files_failed_to_backup s' /\
  (exists more, logfile s' = logfile s ++ more) /\
  (exists more, uploaded s' = uploaded s ++ more) /\
  (exists more, emitted s' = emitted s ++ more).

(** What the batches look like: during the walk, fewer than 1000 files
    pending and every batch of exactly 1000; after a normal return,
    nothing pending, an empty work list, and batches of exactly 1000
    followed by at most one smaller, non-empty batch. *)
Definition calls_inv (s : state) : Prop :=
  match run_status s with
  | Walking =>
      (List.length (files s) < 1000)%nat /\
      Forall (fun b => List.length b = 1000%nat) (uploaded s)
  | Returned =>
      files s = [] /\ includes s = [] /\
      exists full last,
        uploaded s = full ++ last /\
        Forall (fun b => List.length b = 1000%nat) full /\
        (List.length last <= 1)%nat /\
        Forall (fun b => (0 < List.length b < 1000)%nat) last
  | Raised _ => True
  end.

(** The candidates the walk can come to from the work-list entry [c0]:
    [c0] itself, and the entries of every directory that a candidate
    resolves to, when no exclude matches the directory. *)
Inductive reach (O : oracle) (excludes : list path) (c0 : path) : path -> Prop :=
| reach_root : reach O excludes c0 c0
| reach_entry (c q : path) (children : list path) (c' : path) :
    reach O excludes c0 c ->
    resolve O c = Ok q ->
    find_exclude excludes q = None ->
    is_file O q = false ->
    is_dir O q = true ->
    iterdir O q = Ok children ->
    In c' children ->
    reach O excludes c0 c'.

(** [q] is a regular file, matched by no exclude, that a candidate
    reachable from one of the [roots] resolves to. *)
Definition target (O : oracle) (excludes roots : list path) (q : path) : Prop :=
  exists c0 c,
    In c0 roots /\ reach O excludes c0 c /\ resolve O c = Ok q /\
    find_exclude excludes q = None /\ is_file O q = true.

(** Every work-list entry is reachable from a root, the value of
    [include] is what a reachable candidate resolves to, and every
    emitted path is a target. *)
Definition sound_inv (O : oracle) (excludes roots : list path) (s : state) : Prop :=
  (forall c, In c (includes s) -> exists c0, In c0 roots /\ reach O excludes c0 c) /\
  (forall q, include s = Some q ->
             exists c0 c, In c0 roots /\ reach O excludes c0 c /\
                          resolve O c = Ok q) /\
  Forall (target O excludes roots) (emitted s).

(** Unless the run has raised, a regular file that no exclude matches
    and that a reachable candidate resolves to is emitted already or is
    still to be reached from the work list. *)
Definition complete_inv (O : oracle) (excludes roots : list path) (s : state)
  : Prop :=
  (forall e, run_status s <> Raised e) ->
  forall c0 c q,
    In c0 roots -> reach O excludes c0 c -> resolve O c = Ok q ->
    find_exclude excludes q = None -> is_file O q = true ->
    In q (emitted s) \/ exists c1, In c1 (includes s) /\ reach O excludes c1 c.

(** The work left by a work list, for a function [size] that bounds the
    number of candidates below each entry. *)
Definition work (size : path -> nat) (l : list path) : nat :=
  list_sum (map (fun c => S (size c)) l).

(** [size] bounds the walk: the entries of a directory that the walk
    expands leave less work than the candidate that resolved to it. *)
Definition bounds_walk (O : oracle) (excludes : list path) (size : path -> nat)
  : Prop :=
  forall c q children,
    resolve O c = Ok q ->
    find_exclude excludes q = None ->
    is_file O q = false ->
    is_dir O q = true ->
    iterdir O q = Ok children ->
    (work size children <= size c)%nat.

(** The sum of a list of sizes. *)
Definition total_size (sizes : list Z) : Z := fold_right Z.add 0 sizes.

(** ** More of the scheduling loop *)

(** Lines 240-262 over the successive readings [clock] of the current
    time at line 248: the times at which a run is started.  An exception
    of a run is caught at line 261 and the loop goes on. *)
Fixpoint main_loop (clock : list datetime) (interval : timedelta)
  (lastrunfile : option datetime) : list datetime :=
  match clock with
  | [] => []
  | now :: later =>
      match schedule lastrunfile interval now with
      | (StartRun, file) => now :: main_loop later interval file
      | (SleepAndRetry, file) => main_loop later interval file
      end
  end.

(** Successive elements of [l] are at least [gap] apart, the first one
    at least [gap] after [from] when there is one. *)
Fixpoint spaced (gap : Z) (from : option Z) (l : list Z) : Prop :=
  match l with
  | [] => True
  | t :: later =>
      match from with
      | Some t0 => t0 + gap <= t
      | None => True
      end /\ spaced gap (Some t) later
  end.

(** ** The logged unit *)

(** The number of bytes one unit stands for. *)
Definition unit_factor (unit : string) : Q :=
  if String.eqb unit "kB" then 1024 # 1
  else if String.eqb unit "MB" then 1048576 # 1
  else if String.eqb unit "GB" then 1073741824 # 1
  else 1 # 1.

(** ** The adapter of the utility *)

(** Lines 60-91.  The text printed by the utility is a string over the
    code points below 256; what [subprocess] and the XML parser do is
    given from outside: [run_util] stands for the outcome of the call of
    the utility and [fromstring] for [xml.etree.ElementTree.fromstring]. *)
Module Adapter.

(** [s.find(sub)] from position [i] on: the lowest index, or -1. *)
Fixpoint find_from (sub s : string) (i : Z) : Z :=
  if String.prefix sub s then i
  else
    match s with
    | EmptyString => -1
    | String _ r => find_from sub r (i + 1)
    end.

Definition find (s sub : string) : Z := find_from sub s 0.

Fixpoint drop (n : nat) (s : string) : string :=
  match n, s with
  | 0%nat, _ => s
  | S n', String _ r => drop n' r
  | S _, EmptyString => EmptyString
  end.

(** [s[pos:]]; a negative position counts from the end. *)
Definition slice_from (s : string) (pos : Z) : string :=
  if pos <? 0
  then drop (Z.to_nat (Z.max 0 (Z.of_nat (String.length s) + pos))) s
  else drop (Z.to_nat pos) s.

(** Lines 63-65. *)
Definition skip_preamble (out : string) : string :=
  let pos := find out "<tree" in
  if negb (pos =? -1) then slice_from out pos else out.

(** An element, by its attributes; [get] is [Element.get]. *)
Definition element : Type := list (string * string).

Fixpoint get (e : element) (key : string) : option string :=
  match e with
  | [] => None
  | (k, v) :: r => if String.eqb k key then Some v else get r key
  end.

(** The characters [str.splitlines] breaks lines at, among the code
    points below 256. *)
Definition is_linebreak (c : ascii) : bool :=
  let n := nat_of_ascii c in
  Nat.eqb n 10 || Nat.eqb n 11 || Nat.eqb n 12 || Nat.eqb n 13 ||
  Nat.eqb n 28 || Nat.eqb n 29 || Nat.eqb n 30 || Nat.eqb n 133.

(** [s.splitlines()], [line] being the part of the current line read so
    far: a carriage return followed by a line feed is one break, and no
    empty line is reported after a final break. *)
Fixpoint splitlines_from (s : string) (line : string) : list string :=
  match s with
  | EmptyString =>
      match line with
      | EmptyString => []
      | _ => [line]
      end
  | String c r =>
      if is_linebreak c then
        line ::
        (if Nat.eqb (nat_of_ascii c) 13 then
           match r with
           | String c' r' =>
               if Nat.eqb (nat_of_ascii c') 10 then splitlines_from r' ""
               else splitlines_from r ""
           | EmptyString => splitlines_from r ""
           end
         else splitlines_from r "")
      else splitlines_from r (String.append line (String c ""))
  end.

Definition splitlines (s : string) : list string := splitlines_from s "".

(** [line.startswith('<item')] *)
Definition is_item_line (line : string) : bool := String.prefix "<item" line.

Section Parser.

Variable fromstring : string -> result element.

(** Lines 60-67. *)
Definition run_util_tree (run_util : result string) : result element :=
  match run_util with
  | Raise e => Raise e
  | Ok out => fromstring (skip_preamble out)
  end.

(** Lines 75-77: the loop over the lines, [items] being the list
    appended to. *)
Fixpoint collect (lines : list string) (items : list element)
  : result (list element) :=
  match lines with
  | [] => Ok items
  | line :: later =>
      if is_item_line line then
        match fromstring line with
        | Ok it => collect later (items ++ [it])
        | Raise e => Raise e
        end
      else collect later items
  end.

(** Lines 70-79. *)
Definition run_util_items (run_util : result string) : result (list element) :=
  match run_util with
  | Raise e => Raise e
  | Ok out => collect (splitlines out) []
  end.

End Parser.

(** How the start of the program ends: with a value, with [sys.exit] and
    its message, or with an exception. *)
Inductive startup (A : Type) : Type :=
| Started (a : A)
| Exits (message : string)
| Fails (e : exn).
Arguments Started {A} a.
Arguments Exits {A} message.
Arguments Fails {A} e.

(** Lines 85-91: the [for] loop over the listed devices with its [else]
    clause; the result is [device_id]. *)
Fixpoint find_device (devices : list element) (device_name : string)
  : startup string :=
  match devices with
  | [] =>
      Exits (String.append "Failed to map device name "
               (String.append device_name " to device ID."))
  | device :: later =>
      if attr_is (get device "nick_name") device_name then
        match get device "device_id" with
        | Some id => Started (String.append "5c0b" (String.append id "4b5z"))
        | None => Fails TypeError
        end
      else find_device later device_name
  end.

End Adapter.

(** ** The report of a run *)

Inductive subject : Type :=
| SuccessfulBackupSummary
| IncompleteBackupSummary (failed considered : Z).

Record summary : Type := mksummary {
  summary_considered : Z;
  summary_backed_up_now : Z;
  summary_already_present : Z;
  summary_failed : Z;
  quota_used : Z;
  quota_total : Z }.

(** Lines 205-236: the figures of the summary and the subject of the
    mail, from the answer [quota] of the utility to the quota query and
    the counters the run has left. *)
Definition report (O : oracle) (quota : result Adapter.element) (s : state)
  : result (summary * subject) :=
  match quota with
  | Raise e => Raise e
  | Ok quota =>
      match int O (Adapter.get quota "usedquota") with
      | Raise e => Raise e
      | Ok used =>
          match int O (Adapter.get quota "totalquota") with
          | Raise e => Raise e
          | Ok total =>
              let quota_used := Z.shiftr used 30 in
              let quota_total := Z.shiftr total 30 in
              Ok (mksummary (files_considered_for_backup s)
                            (files_backed_up_now s)
                            (files_already_present s)
                            (files_failed_to_backup s)
                            quota_used quota_total,
                  if files_failed_to_backup s =? 0 then SuccessfulBackupSummary
                  else IncompleteBackupSummary (files_failed_to_backup s)
                                               (files_considered_for_backup s))
          end
      end
  end.

(** The line that ends the log of a run that has returned. *)
Definition finished_line (s : state) : event :=
  if files_failed_to_backup s =? 0
  then FinishedSuccessful (files_backed_up_now s)
  else FinishedIncomplete (files_backed_up_now s) (files_failed_to_backup s).

Definition finished_inv (s : state) : Prop :=
  run_status s = Returned ->
  exists before, logfile s = before ++ [finished_line s].

(** ** More environments for the examples *)

Module Fixtures.

(** A directory [/d] whose only entry [/d/b] does not resolve. *)
Definition trap : oracle :=
  {| resolve := fun p => if path_eqb p (Path "/d/b") then Raise FileNotFoundError
                         else Ok p;
     is_file := fun _ => false;
     is_dir := fun p => path_eqb p (Path "/d");
     iterdir := fun p => if path_eqb p (Path "/d") then Ok [Path "/d/b"]
                         else Raise OSError;
     run_util_items := fun _ _ => Ok [];
     int := Demo.int_decimal |}.

(** The number of candidates below a path of [Demo.big n]. *)
Definition big_size (n : nat) (p : path) : nat :=
  if path_eqb p (Path "/big") then n else 0%nat.

End Fixtures.

(** * Properties *)

(** ** Paths *)

Example Path_abs : Path "/a//b/./c/" = mkpath "/" ["a"; "b"; "c"].
Proof. reflexivity. Qed.

Example Path_dotdot : Path "/a/../b" = mkpath "/" ["a"; ".."; "b"].
Proof. reflexivity. Qed.

Example Path_rel : Path "x/y" = mkpath "" ["x"; "y"].
Proof. reflexivity. Qed.

Example Path_two_slashes :
  Path "//a" = mkpath "//" ["a"] /\ Path "///a" = mkpath "/" ["a"] /\
  Path "" = mkpath "" [] /\ Path "/" = mkpath "/" [].
Proof. repeat split; reflexivity. Qed.

Example int_decimal_examples :
  Demo.int_decimal (Some "1500") = Ok 1500 /\
  Demo.int_decimal (Some "-7") = Ok (-7) /\
  Demo.int_decimal (Some "12a") = Raise ValueError /\
  Demo.int_decimal (Some "") = Raise ValueError /\
  Demo.int_decimal None = Raise TypeError.
Proof. repeat split; reflexivity. Qed.

Example parents_abs :
  parents (Path "/a/b/c") = [Path "/a/b"; Path "/a"; Path "/"].
Proof. reflexivity. Qed.

Example parents_rel : parents (Path "a/b") = [Path "a"; Path "."].
Proof. reflexivity. Qed.

Lemma names_eqb_eq (l1 l2 : list string) : names_eqb l1 l2 = true <-> l1 = l2.
Proof.
  revert l2; induction l1 as [|x r1 IH]; intros [|y r2]; simpl;
    try (split; [discriminate | congruence]); [tauto|].
  rewrite andb_true_iff, String.eqb_eq, IH.
  split; [intros [-> ->]; reflexivity | intros E; inversion E; auto].
Qed.

Lemma path_eqb_eq (p q : path) : path_eqb p q = true <-> p = q.
Proof.
  unfold path_eqb. rewrite andb_true_iff, String.eqb_eq, names_eqb_eq.
  destruct p, q; simpl. split; [intros [-> ->]; reflexivity|].
  intros E; inversion E; auto.
Qed.

Lemma path_eqb_refl (p : path) : path_eqb p p = true.
Proof. apply path_eqb_eq; reflexivity. Qed.

(** [parents] lists exactly the paths the specification calls ancestors. *)
Lemma In_parents_descendant (e p : path) : In e (parents p) <-> descendant p e.
Proof.
  unfold parents, descendant. rewrite in_map_iff. split.
  - intros (i & <- & Hi). apply in_seq in Hi. simpl. split; [reflexivity|].
    set (k := (List.length (names p) - 1 - i)%nat).
    exists (skipn k (names p)). split.
    + intros E. apply (f_equal (@List.length string)) in E.
      rewrite length_skipn in E. simpl in E. lia.
    + symmetry. apply firstn_skipn.
  - intros (Hr & suffix & Hne & Hn).
    exists (List.length suffix - 1)%nat.
    assert (0 < List.length suffix)%nat by (destruct suffix; simpl; [congruence | lia]).
    split.
    + destruct e as [re ne]; simpl in *. rewrite Hr, Hn. f_equal.
      rewrite length_app.
      replace (List.length ne + List.length suffix - 1 - (List.length suffix - 1))%nat
        with (List.length ne + 0)%nat by lia.
      rewrite firstn_app_2. simpl. apply app_nil_r.
    + apply in_seq. rewrite Hn, length_app. lia.
Qed.

Lemma in_parents_descendant (e p : path) :
  in_parents e p = true <-> descendant p e.
Proof.
  unfold in_parents. rewrite existsb_exists, <- In_parents_descendant. split.
  - intros (x & Hx & E). apply path_eqb_eq in E. subst; assumption.
  - intros H. exists e. split; [assumption | apply path_eqb_refl].
Qed.

Lemma matches_iff (include_ exclude : path) :
  matches include_ exclude = true <->
  exclude = include_ \/ descendant include_ exclude.
Proof.
  unfold matches. rewrite orb_true_iff, path_eqb_eq, in_parents_descendant.
  tauto.
Qed.

Lemma find_exclude_None (excludes : list path) (include_ : path) :
  find_exclude excludes include_ = None <->
  forall e, In e excludes -> e <> include_ /\ ~ descendant include_ e.
Proof.
  unfold find_exclude. split.
  - intros H e He. pose proof (find_none _ _ H e He) as Hm.
    split; intros X; assert (matches include_ e = true) as Y
      by (apply matches_iff; auto); congruence.
  - intros H. induction excludes as [|x r IH]; simpl; [reflexivity|].
    destruct (matches include_ x) eqn:Hm.
    + apply matches_iff in Hm. destruct (H x (or_introl eq_refl)). tauto.
    + apply IH. intros e He. apply H. right; assumption.
Qed.

Lemma find_exclude_Some (excludes : list path) (include_ e : path) :
  find_exclude excludes include_ = Some e ->
  In e excludes /\ (e = include_ \/ descendant include_ e).
Proof.
  unfold find_exclude. intros H. apply find_some in H.
  rewrite matches_iff in H. exact H.
Qed.

(** ** The uploader leaves the walk alone *)

Section UploaderFacts.

Variable O : oracle.

Lemma upload_item_frame it last s r s' :
  upload_item O it last s = (r, s') ->
  includes s' = includes s /\ include s' = include s /\ files s' = files s /\
  uploaded s' = uploaded s /\ run_status s' = run_status s.
Proof.
  unfold upload_item.
  destruct (negb (attr_is (per it) "100%")); [intros [= <- <-]; tauto|].
  destruct (int O (tottrf_sz it)); [|intros [= <- <-]; tauto].
  destruct (_ || _);
    [destruct (logged _) as [[size unit]|e]; intros [= <- <-]; simpl; tauto|].
  destruct (attr_is _ "FILE IN SYNC"); intros [= <- <-]; simpl; tauto.
Qed.

Lemma upload_items_frame items : forall last s r s',
  upload_items O items last s = (r, s') ->
  includes s' = includes s /\ include s' = include s /\ files s' = files s /\
  uploaded s' = uploaded s /\ run_status s' = run_status s.
Proof.
  induction items as [|it rest IH]; simpl; intros last s r s'.
  - intros [= <- <-]; tauto.
  - destruct (upload_item O it last s) as [[last'|e] s1] eqn:E1;
      apply upload_item_frame in E1.
    + intros E2. apply IH in E2. intuition congruence.
    + intros [= <- <-]. assumption.
Qed.

Lemma upload_files_frame s r s' :
  upload_files O s = (r, s') ->
  includes s' = includes s /\ include s' = include s /\ files s' = [] /\
  uploaded s' = uploaded s ++ [files s] /\ run_status s' = run_status s.
Proof.
  unfold upload_files.
  destruct (run_util_items O _ _) as [items|e].
  - intros E. apply upload_items_frame in E. simpl in E. exact E.
  - intros [= <- <-]. simpl. tauto.
Qed.

Lemma upload_files_emitted s r s' :
  upload_files O s = (r, s') -> emitted s' = emitted s.
Proof.
  intros E. apply upload_files_frame in E.
  destruct E as (_ & _ & Hf & Hu & _). unfold emitted.
  rewrite Hf, Hu, concat_app. simpl. rewrite !app_nil_r. reflexivity.
Qed.

End UploaderFacts.

(** ** One turn of the walk *)

Section WalkerFacts.

Variable O : oracle.
Variable excludes : list path.

Lemma pop_app {A : Type} (l : list A) (x : A) : pop (l ++ [x]) = Some (l, x).
Proof. induction l as [|y r IH]; simpl; [reflexivity | rewrite IH; reflexivity]. Qed.

Lemma pop_Some {A : Type} (l : list A) : forall rest x,
  pop l = Some (rest, x) -> l = rest ++ [x].
Proof.
  induction l as [|y r IH]; simpl; intros rest x; [discriminate|].
  destruct (pop r) as [[r' z]|] eqn:E.
  - intros [= <- <-]. simpl. f_equal. apply IH. reflexivity.
  - intros [= <- <-]. destruct r as [|y' r]; [reflexivity|].
    exfalso. clear IH. simpl in *. destruct (pop r) as [[]|]; discriminate.
Qed.

Lemma pop_None {A : Type} (l : list A) : pop l = None <-> l = [].
Proof.
  split; [|intros ->; reflexivity].
  destruct l as [|y r]; [reflexivity|]. simpl.
  destruct (pop r) as [[]|]; discriminate.
Qed.

Lemma try_resolve_frame popped s r s' :
  try_resolve O popped s = (r, s') ->
  includes s' = includes s /\ files s' = files s /\
  uploaded s' = uploaded s /\ run_status s' = run_status s.
Proof.
  unfold try_resolve. destruct (resolve O popped) as [q|[]];
    try (intros [= <- <-]; simpl; tauto).
  destruct (include s); intros [= <- <-]; simpl; tauto.
Qed.

(** What a turn does to the queue and to the batches: nothing, or one
    file that no exclude matches is queued, and the queue is handed over
    when that makes 1000. *)
Lemma visit_queue include_ s r s' :
  visit O excludes include_ s = (r, s') ->
  run_status s' = run_status s /\ include s' = include s /\
  ((files s' = files s /\ uploaded s' = uploaded s) \/
   (find_exclude excludes include_ = None /\ is_file O include_ = true /\
    ((List.length (files s ++ [include_]) <> 1000%nat /\
      files s' = files s ++ [include_] /\ uploaded s' = uploaded s) \/
     (List.length (files s ++ [include_]) = 1000%nat /\
      files s' = [] /\ uploaded s' = uploaded s ++ [files s ++ [include_]])))).
Proof.
  unfold visit. destruct (find_exclude excludes include_) as [e|] eqn:Hx.
  { intros [= <- <-]. simpl. tauto. }
  destruct (is_file O include_) eqn:Hf.
  - cbv zeta.
    change (files (set_files (files s ++ [include_]) s)) with (files s ++ [include_]).
    destruct (Nat.eqb_spec (List.length (files s ++ [include_])) 1000) as [Hl|Hl].
    + intros E. apply upload_files_frame in E. simpl in E.
      destruct E as (_ & Hi & Hfi & Hu & Hs). intuition.
    + intros [= <- <-]. simpl. split; [reflexivity|]. split; [reflexivity|].
      right. intuition.
  - destruct (is_dir O include_).
    + destruct (iterdir O include_) as [children|[]];
        intros [= <- <-]; simpl; tauto.
    + intros [= <- <-]. simpl. tauto.
Qed.

Lemma visit_emitted include_ s r s' :
  visit O excludes include_ s = (r, s') ->
  emitted s' = emitted s \/
  (emitted s' = emitted s ++ [include_] /\ find_exclude excludes include_ = None).
Proof.
  intros E. apply visit_queue in E.
  destruct E as (_ & _ & [[Hf Hu] | (Hx & _ & [(_ & Hf & Hu) | (_ & Hf & Hu)])]);
    unfold emitted; rewrite Hf, Hu.
  - left; reflexivity.
  - right. split; [apply app_assoc | assumption].
  - right. split; [|assumption].
    rewrite concat_app. simpl. rewrite !app_nil_r. apply app_assoc.
Qed.

Lemma iteration_emitted rest popped s r s' :
  iteration O excludes rest popped s = (r, s') ->
  emitted s' = emitted s \/
  exists q, emitted s' = emitted s ++ [q] /\ find_exclude excludes q = None.
Proof.
  unfold iteration.
  destruct (try_resolve O popped (set_includes rest s)) as [[q|e] s1] eqn:E1;
    apply try_resolve_frame in E1; simpl in E1;
    destruct E1 as (_ & Hf & Hu & _);
    assert (emitted s1 = emitted s) as He by (unfold emitted; congruence).
  - intros E2. apply visit_emitted in E2. rewrite He in E2.
    destruct E2 as [E2|E2]; [left; assumption | right; exists q; assumption].
  - intros [= <- <-]. left; assumption.
Qed.

Lemma after_walk_emitted s r s' :
  after_walk O s = (r, s') -> emitted s' = emitted s.
Proof.
  unfold after_walk.
  destruct (Nat.ltb 0 (List.length (files s))).
  - destruct (upload_files O s) as [[[]|e] s1] eqn:E1;
      apply upload_files_emitted in E1.
    + destruct (files_failed_to_backup s1 =? 0); intros [= <- <-]; exact E1.
    + intros [= <- <-]; exact E1.
  - destruct (files_failed_to_backup s =? 0); intros [= <- <-]; reflexivity.
Qed.

Lemma step_emitted s :
  emitted (step O excludes s) = emitted s \/
  exists q, emitted (step O excludes s) = emitted s ++ [q] /\
            find_exclude excludes q = None.
Proof.
  unfold step. destruct (run_status s); try (left; reflexivity).
  destruct (pop (includes s)) as [[rest popped]|].
  - destruct (iteration O excludes rest popped s) as [[[]|e] s1] eqn:E;
      apply iteration_emitted in E; exact E.
  - destruct (after_walk O s) as [[[]|e] s1] eqn:E;
      apply after_walk_emitted in E; left; exact E.
Qed.

Lemma steps_emitted fuel : forall s,
  Forall (fun p => find_exclude excludes p = None) (emitted s) ->
  Forall (fun p => find_exclude excludes p = None) (emitted (steps O excludes fuel s)).
Proof.
  induction fuel as [|n IH]; simpl; intros s H; [exact H|].
  apply IH. destruct (step_emitted s) as [E | (q & E & Hq)]; rewrite E.
  - exact H.
  - apply Forall_app. split; [exact H | constructor; [exact Hq | constructor]].
Qed.

End WalkerFacts.

(** ** The exclude filter *)

Lemma is_skipped_iff (excludes : list path) (include_ : path) :
  is_skipped excludes include_ = true <->
  exists e, In e excludes /\ (e = include_ \/ descendant include_ e).
Proof.
  unfold is_skipped. destruct (find_exclude excludes include_) as [e|] eqn:E.
  - apply find_exclude_Some in E. split; [intros _; exists e; exact E | reflexivity].
  - split; [discriminate|]. intros (e & He & Hm).
    destruct (proj1 (find_exclude_None _ _) E e He). tauto.
Qed.

(** Scenario of the specification: with [/a] included and [/a/f2.txt]
    excluded, only [/a/f1.txt] is emitted. *)
Example scenario_exclude_file :
  emitted (run_backup Demo.demo (mkconfig ["/a"] ["/a/f2.txt"]) 5) = [Path "/a/f1.txt"]
  /\ run_status (run_backup Demo.demo (mkconfig ["/a"] ["/a/f2.txt"]) 5) = Returned.
Proof. vm_compute. split; reflexivity. Qed.

(** C1: whatever the environment, the configuration and the number of
    steps run, a path the walker has appended to the pending file queue
    (pending still, or already handed over in a batch) is not equal to an
    exclude path and is not a descendant of one. *)
Theorem emitted_not_excluded (O : oracle) (c : config) (fuel : nat) (p e : path) :
  In p (emitted (run_backup O c fuel)) ->
  In e (map Path (config_excludes c)) ->
  p <> e /\ ~ descendant p e.
Proof.
  intros Hp He.
  assert (Forall (fun p => find_exclude (map Path (config_excludes c)) p = None)
                 (emitted (run_backup O c fuel))) as H.
  { apply steps_emitted. constructor. }
  rewrite Forall_forall in H. specialize (H p Hp).
  destruct (proj1 (find_exclude_None _ _) H e He) as [Hne Hd].
  split; [congruence | exact Hd].
Qed.

Lemma emitted_not_excluded_witness :
  In (Path "/a/f1.txt")
     (emitted (run_backup Demo.demo (mkconfig ["/a"] ["/a/f2.txt"]) 5)) /\
  In (Path "/a/f2.txt") (map Path (config_excludes (mkconfig ["/a"] ["/a/f2.txt"]))) /\
  (Path "/a/f1.txt" <> Path "/a/f2.txt" /\
   ~ descendant (Path "/a/f1.txt") (Path "/a/f2.txt")).
Proof.
  assert (In (Path "/a/f1.txt")
     (emitted (run_backup Demo.demo (mkconfig ["/a"] ["/a/f2.txt"]) 5))) as H1
    by (vm_compute; left; reflexivity).
  assert (In (Path "/a/f2.txt")
     (map Path (config_excludes (mkconfig ["/a"] ["/a/f2.txt"])))) as H2
    by (vm_compute; left; reflexivity).
  split; [exact H1|]. split; [exact H2|].
  exact (emitted_not_excluded Demo.demo (mkconfig ["/a"] ["/a/f2.txt"]) 5
           (Path "/a/f1.txt") (Path "/a/f2.txt") H1 H2).
Defined.

(** C8: the decision to skip a candidate is the same for two exclude
    lists that are permutations of each other; the candidate is skipped
    exactly when some exclude equals it or is an ancestor of it, and when
    it is not skipped the whole turn of the loop is the same. *)
Theorem skip_order_irrelevant (O : oracle) (ex1 ex2 : list path)
  (candidate : path) (s : state) :
  Permutation ex1 ex2 ->
  is_skipped ex1 candidate = is_skipped ex2 candidate /\
  (is_skipped ex1 candidate = true <->
   exists e, In e ex1 /\ (e = candidate \/ descendant candidate e)) /\
  (is_skipped ex1 candidate = false ->
   visit O ex1 candidate s = visit O ex2 candidate s) /\
  (is_skipped ex1 candidate = true ->
   exists e1 e2,
     visit O ex1 candidate s = (Ok tt, write (SkipExcluded candidate e1) s) /\
     visit O ex2 candidate s = (Ok tt, write (SkipExcluded candidate e2) s)).
Proof.
  intros HP.
  assert (is_skipped ex1 candidate = is_skipped ex2 candidate) as Heq.
  { apply eq_true_iff_eq. rewrite !is_skipped_iff.
    split; intros (e & He & Hm); exists e; split; try assumption.
    - eapply Permutation_in; eassumption.
    - eapply Permutation_in; [apply Permutation_sym|]; eassumption. }
  split; [exact Heq|]. split; [apply is_skipped_iff|].
  unfold is_skipped, visit in *.
  destruct (find_exclude ex1 candidate) as [e1|];
    destruct (find_exclude ex2 candidate) as [e2|]; try discriminate.
  - split; [discriminate|]. intros _. exists e1, e2. split; reflexivity.
  - split; [reflexivity | discriminate].
Qed.

Lemma skip_order_irrelevant_witness :
  Permutation [Path "/a/f2.txt"; Path "/a"] [Path "/a"; Path "/a/f2.txt"] /\
  is_skipped [Path "/a/f2.txt"; Path "/a"] (Path "/a/f2.txt") =
  is_skipped [Path "/a"; Path "/a/f2.txt"] (Path "/a/f2.txt").
Proof.
  split; [apply perm_swap|].
  exact (proj1 (skip_order_irrelevant Demo.demo
                  [Path "/a/f2.txt"; Path "/a"] [Path "/a"; Path "/a/f2.txt"]
                  (Path "/a/f2.txt")
                  (start (mkconfig [] []))
                  (perm_swap _ _ _))).
Defined.

(** ** Batches *)

Section Batching.

Variable O : oracle.
Variable excludes : list path.

Lemma iteration_queue rest popped s r s' :
  iteration O excludes rest popped s = (r, s') ->
  run_status s' = run_status s /\
  ((files s' = files s /\ uploaded s' = uploaded s) \/
   exists q,
     (List.length (files s ++ [q]) <> 1000%nat /\
      files s' = files s ++ [q] /\ uploaded s' = uploaded s) \/
     (List.length (files s ++ [q]) = 1000%nat /\
      files s' = [] /\ uploaded s' = uploaded s ++ [files s ++ [q]])).
Proof.
  unfold iteration.
  destruct (try_resolve O popped (set_includes rest s)) as [[q|e] s1] eqn:E1;
    apply try_resolve_frame in E1; simpl in E1;
    destruct E1 as (_ & Hf & Hu & Hs).
  - intros E2. apply visit_queue in E2. rewrite Hf, Hu, Hs in E2.
    destruct E2 as (Hs' & _ & [H | (_ & _ & H)]).
    + split; [exact Hs' | left; exact H].
    + split; [exact Hs' | right; exists q; exact H].
  - intros [= <- <-]. split; [exact Hs | left; split; assumption].
Qed.

Lemma write_frame ev s :
  files (write ev s) = files s /\ uploaded (write ev s) = uploaded s /\
  run_status (write ev s) = run_status s.
Proof. simpl. tauto. Qed.

Lemma after_walk_queue s r s' :
  after_walk O s = (r, s') ->
  run_status s' = run_status s /\
  ((files s = [] /\ files s' = [] /\ uploaded s' = uploaded s) \/
   (files s <> [] /\ files s' = [] /\ uploaded s' = uploaded s ++ [files s])).
Proof.
  unfold after_walk. destruct (files s) as [|f fs] eqn:Hfs.
  - simpl. destruct (files_failed_to_backup s =? 0); intros [= <- <-];
      simpl; rewrite Hfs; tauto.
  - change (Nat.ltb 0 (List.length (f :: fs))) with true. cbv iota.
    destruct (upload_files O s) as [[[]|e] s1] eqn:E1;
      apply upload_files_frame in E1; rewrite Hfs in E1;
      destruct E1 as (_ & _ & Hf & Hu & Hs).
    + destruct (files_failed_to_backup s1 =? 0); intros [= <- <-]; simpl;
        (split; [exact Hs | right; split; [discriminate | split; assumption]]).
    + intros [= <- <-].
      split; [exact Hs | right; split; [discriminate | split; assumption]].
Qed.

Lemma Forall_eq_le (l : list (list path)) :
  Forall (fun b => List.length b = 1000%nat) l ->
  Forall (fun b => (List.length b <= 1000)%nat) l.
Proof. apply Forall_impl. intros b ->. apply le_n. Qed.

Lemma batching_inv_le s :
  batching_inv s -> Forall (fun b => (List.length b <= 1000)%nat) (uploaded s).
Proof.
  unfold batching_inv. destruct (run_status s); try tauto.
  intros [_ H]. apply Forall_eq_le; exact H.
Qed.

Lemma step_batching_inv s : batching_inv s -> batching_inv (step O excludes s).
Proof.
  unfold step, batching_inv at 1. destruct (run_status s) eqn:Hst.
  - intros [Hlen Hall]. destruct (pop (includes s)) as [[rest popped]|].
    + destruct (iteration O excludes rest popped s) as [r s1] eqn:E.
      apply iteration_queue in E. rewrite Hst in E.
      assert (((List.length (files s1) < 1000)%nat /\
               Forall (fun b => List.length b = 1000%nat) (uploaded s1))) as H1.
      { destruct E as (_ & [[Hf Hu] | (q & [(Hn & Hf & Hu) | (Hn & Hf & Hu)])]);
          rewrite Hf, Hu.
        - split; assumption.
        - split; [|assumption]. rewrite length_app in *. simpl in *. lia.
        - split; [simpl; lia|]. apply Forall_app. split; [assumption|].
          constructor; [exact Hn | constructor]. }
      destruct E as (Hs1 & _).
      destruct r as [[]|e]; unfold batching_inv; simpl.
      * rewrite Hs1. exact H1.
      * apply Forall_eq_le, H1.
    + destruct (after_walk O s) as [r s1] eqn:E.
      apply after_walk_queue in E.
      assert (Forall (fun b => (List.length b <= 1000)%nat) (uploaded s1)) as H1.
      { destruct E as (_ & [(_ & _ & Hu) | (_ & _ & Hu)]); rewrite Hu.
        - apply Forall_eq_le; assumption.
        - apply Forall_app. split; [apply Forall_eq_le; assumption|].
          constructor; [lia | constructor]. }
      destruct r as [[]|e]; unfold batching_inv; simpl; exact H1.
  - intros H. unfold batching_inv. rewrite Hst. exact H.
  - intros H. unfold batching_inv. rewrite Hst. exact H.
Qed.

Lemma steps_batching_inv fuel : forall s,
  batching_inv s -> batching_inv (steps O excludes fuel s).
Proof.
  induction fuel as [|n IH]; simpl; intros s H; [exact H|].
  apply IH, step_batching_inv, H.
Qed.

End Batching.

(** A walk over 1001 files hands over a batch of 1000 during the walk and
    the last file after it. *)
Example scenario_1001_files :
  map (@List.length path)
      (uploaded (run_backup (Demo.big 1001) (mkconfig ["/big"] []) 1003)) =
  [1000%nat; 1%nat] /\
  run_status (run_backup (Demo.big 1001) (mkconfig ["/big"] []) 1003) = Returned.
Proof. vm_compute. split; reflexivity. Qed.

(** A walk over exactly 1000 files makes no call after the walk. *)
Example scenario_1000_files :
  map (@List.length path)
      (uploaded (run_backup (Demo.big 1000) (mkconfig ["/big"] []) 1002)) =
  [1000%nat] /\
  run_status (run_backup (Demo.big 1000) (mkconfig ["/big"] []) 1002) = Returned.
Proof. vm_compute. split; reflexivity. Qed.

(** C2: at every point of every run, each batch handed to the upload
    utility holds at most 1000 paths.  While the walk goes on, a turn of
    the loop hands over a batch exactly when the file it queues is the
    1000th, and the batch is then the whole queue with that file;
    otherwise it hands over nothing, and the queue is as it was or has
    one file more, fewer than 1000 in all; when the work list is empty,
    the pending files are handed
    over as one last batch of fewer than 1000 if there are any, and no
    call is made if there are none; once the run has ended no call
    is made. *)
Theorem batches_of_1000 (O : oracle) (c : config) (fuel : nat) :
  let excludes := map Path (config_excludes c) in
  let s := run_backup O c fuel in
  let s' := step O excludes s in
  Forall (fun b => (List.length b <= 1000)%nat) (uploaded s) /\
  (run_status s = Walking -> includes s <> [] ->
   (uploaded s' = uploaded s /\ (List.length (files s') < 1000)%nat /\
    (files s' = files s \/ exists q, files s' = files s ++ [q])) \/
   (exists q, List.length (files s ++ [q]) = 1000%nat /\
              uploaded s' = uploaded s ++ [files s ++ [q]] /\ files s' = [])) /\
  (run_status s = Walking -> includes s = [] -> files s <> [] ->
   uploaded s' = uploaded s ++ [files s] /\
   (0 < List.length (files s) < 1000)%nat) /\
  (run_status s = Walking -> includes s = [] -> files s = [] ->
   uploaded s' = uploaded s) /\
  (run_status s <> Walking -> s' = s).
Proof.
  intros excludes s s'.
  assert (batching_inv s) as Hinv.
  { apply steps_batching_inv. unfold batching_inv. simpl.
    split; [lia | constructor]. }
  split; [apply batching_inv_le; exact Hinv|].
  unfold batching_inv in Hinv. subst s'. unfold step.
  destruct (run_status s) eqn:Hst;
    [|repeat split; try discriminate; reflexivity
     |repeat split; try discriminate; reflexivity].
  destruct Hinv as [Hlen _].
  split; [|split; [|split; [|congruence]]].
  - intros _ Hne. destruct (pop (includes s)) as [[rest popped]|] eqn:Hpop;
      [|apply pop_None in Hpop; contradiction].
    destruct (iteration O excludes rest popped s) as [r s1] eqn:E.
    apply iteration_queue in E.
    assert (uploaded (match r with
                      | Ok _ => s1 | Raise e => set_status (Raised e) s1 end)
            = uploaded s1 /\
            files (match r with
                   | Ok _ => s1 | Raise e => set_status (Raised e) s1 end)
            = files s1) as [-> ->] by (destruct r; split; reflexivity).
    destruct E as (_ & [[Hf Hu] | (q & [(Hn & Hf & Hu) | (Hn & Hf & Hu)])]);
      rewrite Hf, Hu.
    + left. split; [reflexivity|]. split; [exact Hlen | left; reflexivity].
    + left. split; [reflexivity|].
      split; [rewrite length_app in *; simpl in *; lia | right; exists q; reflexivity].
    + right. exists q. repeat split; assumption.
  - intros _ Hnil Hne. rewrite (proj2 (pop_None _) Hnil).
    destruct (after_walk O s) as [r s1] eqn:E. apply after_walk_queue in E.
    destruct E as (_ & [(Hf & _) | (_ & _ & Hu)]); [contradiction|].
    split.
    + destruct r; simpl; exact Hu.
    + split; [|exact Hlen]. destruct (files s); [contradiction | simpl; lia].
  - intros _ Hnil Hf. rewrite (proj2 (pop_None _) Hnil).
    destruct (after_walk O s) as [r s1] eqn:E. apply after_walk_queue in E.
    destruct E as (_ & [(_ & _ & Hu) | (Hne & _)]); [|contradiction].
    destruct r; simpl; exact Hu.
Qed.

Lemma batches_of_1000_witness :
  let O := Demo.big 1001 in
  let c := mkconfig ["/big"] [] in
  let s := run_backup O c 1000 in
  let s' := step O (map Path (config_excludes c)) s in
  run_status s = Walking /\ includes s <> [] /\
  ((uploaded s' = uploaded s /\ (List.length (files s') < 1000)%nat /\
    (files s' = files s \/ exists q, files s' = files s ++ [q])) \/
   (exists q, List.length (files s ++ [q]) = 1000%nat /\
              uploaded s' = uploaded s ++ [files s ++ [q]] /\ files s' = [])).
Proof.
  intros O c s s'.
  assert (run_status s = Walking) as H1 by (vm_compute; reflexivity).
  assert (includes s <> []) as H2 by (vm_compute; discriminate).
  split; [exact H1|]. split; [exact H2|].
  exact (proj1 (proj2 (batches_of_1000 O c 1000)) H1 H2).
Defined.

(** ** Floats *)

Section Floats.

Lemma round53_small (n : Z) : 0 <= n < 2 ^ 53 -> round53 n = n.
Proof.
  intros [H0 H1]. unfold round53.
  assert (Z.log2 n + 1 <= 53) as Hb.
  { destruct (Z.eq_dec n 0) as [->|Hn]; [simpl; lia|].
    assert (Z.log2 n < 53) by (apply Z.log2_lt_pow2; lia). lia. }
  destruct (Z.leb_spec (Z.log2 n + 1) 53); [reflexivity | lia].
Qed.

Lemma round53_bound (n : Z) :
  0 <= n -> 0 <= round53 n <= 2 ^ (Z.log2 n + 1).
Proof.
  intros H0. unfold round53.
  assert (n < 2 ^ (Z.log2 n + 1)) as Hlt.
  { destruct (Z.eq_dec n 0) as [->|Hn]; [simpl; lia|].
    apply Z.log2_spec. lia. }
  destruct (Z.leb_spec (Z.log2 n + 1) 53) as [Hb|Hb]; [lia|].
  cbv zeta.
  set (shift := Z.log2 n + 1 - 53) in *.
  assert (0 < shift) as Hs by (unfold shift; lia).
  assert (0 < 2 ^ shift) as HP by (apply Z.pow_pos_nonneg; lia).
  assert (2 ^ (Z.log2 n + 1) = 2 ^ 53 * 2 ^ shift) as Hpow.
  { rewrite <- Z.pow_add_r by lia. f_equal. unfold shift. lia. }
  assert (0 <= n / 2 ^ shift) as Hq0 by (apply Z.div_pos; lia).
  assert (n / 2 ^ shift < 2 ^ 53) as Hq1.
  { apply Z.div_lt_upper_bound; [exact HP|]. rewrite Z.mul_comm, <- Hpow. exact Hlt. }
  rewrite Hpow.
  destruct ((2 ^ (shift - 1) <? n mod 2 ^ shift) ||
            ((n mod 2 ^ shift =? 2 ^ (shift - 1)) && Z.odd (n / 2 ^ shift))).
  - split; [apply Z.mul_nonneg_nonneg; lia|].
    apply Z.mul_le_mono_nonneg_r; lia.
  - split; [apply Z.mul_nonneg_nonneg; lia|].
    apply Z.mul_le_mono_nonneg_r; lia.
Qed.

Lemma round53_below (n k : Z) :
  0 <= k -> 0 <= n < 2 ^ k -> 0 <= round53 n <= 2 ^ k.
Proof.
  intros Hk [H0 H1]. destruct (round53_bound n H0) as [Ha Hb].
  split; [exact Ha|].
  destruct (Z.eq_dec n 0) as [->|Hn].
  - unfold round53. simpl. apply Z.pow_nonneg. lia.
  - assert (Z.log2 n < k) by (apply Z.log2_lt_pow2; lia).
    transitivity (2 ^ (Z.log2 n + 1)); [exact Hb|].
    apply Z.pow_le_mono_r; lia.
Qed.

Lemma nearest_double_below (n k : Z) :
  0 <= k -> Z.abs n < 2 ^ k -> Z.abs (nearest_double n) <= 2 ^ k.
Proof.
  intros Hk H. unfold nearest_double. destruct (Z.ltb_spec n 0) as [Hn|Hn].
  - destruct (round53_below (- n) k Hk) as [Ha Hb]; [lia|]. lia.
  - destruct (round53_below n k Hk) as [Ha Hb]; lia.
Qed.

Lemma nearest_double_small (n : Z) :
  Z.abs n < 2 ^ 53 -> nearest_double n = n.
Proof.
  intros H. unfold nearest_double. destruct (Z.ltb_spec n 0) as [Hn|Hn].
  - rewrite round53_small by lia. lia.
  - apply round53_small. lia.
Qed.

Lemma float_of_int_in_range (n : Z) :
  Z.abs n < 2 ^ 1023 -> float_of_int n = Ok (inject_Z (nearest_double n)).
Proof.
  intros H. unfold float_of_int.
  pose proof (nearest_double_below n 1023 ltac:(lia) H) as Hm.
  assert (2 ^ 1023 < 2 ^ 1024) as Hp by (apply Z.pow_lt_mono_r; lia).
  destruct (Z.leb_spec (2 ^ 1024) (Z.abs (nearest_double n))); [lia | reflexivity].
Qed.

Lemma int_div_1024_in_range (n : Z) :
  Z.abs n < 2 ^ 1023 ->
  int_div_1024 n = Ok (Qdiv (inject_Z (nearest_double n)) (1024 # 1)).
Proof.
  intros H. unfold int_div_1024.
  pose proof (nearest_double_below n 1023 ltac:(lia) H) as Hm.
  assert (2 ^ 1023 < 2 ^ 1034) as Hp by (apply Z.pow_lt_mono_r; lia).
  destruct (Z.leb_spec (2 ^ 1034) (Z.abs (nearest_double n))); [lia | reflexivity].
Qed.

Lemma gt_1024_Int (z : Z) : gt_1024 (Int z) = exceeds_1024 (inject_Z z).
Proof.
  unfold gt_1024, exceeds_1024, Qle_bool. simpl. rewrite Z.mul_1_r.
  apply Z.ltb_antisym.
Qed.

(** The three successive tests are the loop over the units. *)
Lemma scale_is_scale_spec (transfer_size : Z) :
  scale transfer_size = scale_spec transfer_size.
Proof.
  unfold scale, scale_spec, scale_step. cbn [scale_while].
  destruct (gt_1024 (Int transfer_size)) eqn:E1.
  - destruct (div_1024 (Int transfer_size)) as [s1|e]; [|reflexivity].
    destruct (gt_1024 s1) eqn:E2.
    + destruct (div_1024 s1) as [s2|e]; [|reflexivity].
      destruct (gt_1024 s2); [|reflexivity].
      destruct (div_1024 s2); reflexivity.
    + cbv beta iota zeta. rewrite E2. reflexivity.
  - cbv beta iota zeta. rewrite E1. cbv beta iota zeta. rewrite E1. reflexivity.
Qed.

(** A size that fits a float is scaled and rendered without exception. *)
Lemma logged_in_range (size : Z) :
  Z.abs size < 2 ^ 1023 -> exists shown_unit, logged (scale size) = Ok shown_unit.
Proof.
  intros H. rewrite scale_is_scale_spec. unfold scale_spec. cbn [scale_while].
  destruct (gt_1024 (Int size)).
  - unfold div_1024 at 1. rewrite (int_div_1024_in_range size H).
    set (f := Qdiv (inject_Z (nearest_double size)) (1024 # 1)).
    destruct (gt_1024 (Float f)); [|eexists; reflexivity].
    unfold div_1024 at 1.
    destruct (gt_1024 (Float (Qdiv f (1024 # 1)))); eexists; reflexivity.
  - unfold logged, format_1f. rewrite (float_of_int_in_range size H).
    eexists; reflexivity.
Qed.

Lemma scale_while_float (units : list string) : forall (f : Q) (unit : string),
  logged (scale_while units (Float f) unit) = Ok (scale_exact_while units f unit).
Proof.
  induction units as [|u later IH]; intros f unit; [reflexivity|].
  cbn [scale_while scale_exact_while gt_1024 div_1024].
  destruct (exceeds_1024 f); [apply IH | reflexivity].
Qed.

(** Below 2^53 the floats of the code are the exact quotients. *)
Lemma logged_exact (size : Z) :
  Z.abs size < 2 ^ 53 -> logged (scale_spec size) = Ok (scale_exact size).
Proof.
  intros H. unfold scale_spec, scale_exact.
  cbn [scale_while scale_exact_while]. rewrite <- gt_1024_Int.
  assert (Z.abs size < 2 ^ 1023) as H'.
  { assert (2 ^ 53 < 2 ^ 1023) by (apply Z.pow_lt_mono_r; lia). lia. }
  destruct (gt_1024 (Int size)).
  - unfold div_1024. rewrite (int_div_1024_in_range size H').
    rewrite (nearest_double_small size H).
    exact (scale_while_float ["MB"; "GB"] (Qdiv (inject_Z size) (1024 # 1)) "kB").
  - unfold logged, format_1f. rewrite (float_of_int_in_range size H').
    rewrite (nearest_double_small size H). reflexivity.
Qed.

End Floats.

(** ** Records of a batch response *)

Section Records.

Variable O : oracle.

Lemma upload_item_incomplete it last s :
  is_complete it = false -> upload_item O it last s = (Ok last, s).
Proof. unfold upload_item, is_complete. intros ->. reflexivity. Qed.

(** What the body of the loop does with a complete record whose running
    total [int] accepts. *)
Lemma upload_item_equation it last s total :
  is_complete it = true ->
  int O (tottrf_sz it) = Ok total ->
  upload_item O it last s =
  let s1 := incr_considered (record_transfer_size (total - last) s) in
  if is_transfer it then
    match logged (scale (total - last)) with
    | Raise e => (Raise e, s1)
    | Ok (size, unit) =>
        (Ok total,
         incr_backed_up_now
           (write (Transferred size unit (rate_trf it) (fname it)) s1))
    end
  else if is_in_sync it then (Ok total, incr_already_present s1)
  else (Ok total, incr_failed (write (FailedToBackup it) s1)).
Proof.
  unfold upload_item, is_complete, is_transfer, is_in_sync. intros -> ->.
  reflexivity.
Qed.

Lemma upload_item_rejected it last s e :
  is_complete it = true ->
  int O (tottrf_sz it) = Raise e ->
  upload_item O it last s = (Raise e, s).
Proof. unfold upload_item, is_complete. intros -> ->. reflexivity. Qed.

(** A complete record that is processed without exception. *)
Lemma upload_item_ok it last s last' s' :
  is_complete it = true ->
  upload_item O it last s = (Ok last', s') ->
  int O (tottrf_sz it) = Ok last' /\
  transfer_sizes s' = transfer_sizes s ++ [last' - last] /\
  files_considered_for_backup s' = files_considered_for_backup s + 1 /\
  files_backed_up_now s' =
    files_backed_up_now s + (if is_transfer it then 1 else 0) /\
  files_already_present s' =
    files_already_present s +
    (if negb (is_transfer it) && is_in_sync it then 1 else 0) /\
  files_failed_to_backup s' =
    files_failed_to_backup s +
    (if negb (is_transfer it) && negb (is_in_sync it) then 1 else 0) /\
  (is_transfer it = true ->
   exists shown unit,
     logged (scale (last' - last)) = Ok (shown, unit) /\
     logfile s' =
       logfile s ++ [Transferred shown unit (rate_trf it) (fname it)]).
Proof.
  intros Hc. destruct (int O (tottrf_sz it)) as [total|e] eqn:Hint.
  - rewrite (upload_item_equation it last s total Hc Hint). cbv zeta.
    destruct (is_transfer it).
    + destruct (logged (scale (total - last))) as [[shown unit]|e] eqn:Hl;
        [|discriminate].
      intros [= <- <-]. simpl. rewrite Hl, !Z.add_0_r.
      repeat split. intros _. exists shown, unit. split; reflexivity.
    + destruct (is_in_sync it); intros [= <- <-]; simpl; rewrite !Z.add_0_r;
        repeat split; discriminate.
  - rewrite (upload_item_rejected it last s e Hc Hint). discriminate.
Qed.

(** Whatever becomes of a complete record whose running total [int]
    accepts, its size has been derived. *)
Lemma upload_item_size it last s total r s' :
  is_complete it = true ->
  int O (tottrf_sz it) = Ok total ->
  upload_item O it last s = (r, s') ->
  transfer_sizes s' = transfer_sizes s ++ [total - last] /\
  (r = Ok total \/ exists e, r = Raise e).
Proof.
  intros Hc Hint. rewrite (upload_item_equation it last s total Hc Hint). cbv zeta.
  destruct (is_transfer it).
  - destruct (logged (scale (total - last))) as [[shown unit]|e];
      intros [= <- <-]; simpl; split; try reflexivity;
      [left; reflexivity | right; exists e; reflexivity].
  - destruct (is_in_sync it); intros [= <- <-]; simpl; split; try reflexivity;
      left; reflexivity.
Qed.

(** A complete record whose derived size fits a float is processed
    without exception. *)
Lemma upload_item_safe it last s total :
  is_complete it = true ->
  int O (tottrf_sz it) = Ok total ->
  Z.abs (total - last) < 2 ^ 1023 ->
  exists s', upload_item O it last s = (Ok total, s').
Proof.
  intros Hc Hint Hr. rewrite (upload_item_equation it last s total Hc Hint).
  cbv zeta. destruct (is_transfer it).
  - destruct (logged_in_range (total - last) Hr) as [[shown unit] ->].
    eexists; reflexivity.
  - destruct (is_in_sync it); eexists; reflexivity.
Qed.

Lemma count_cons f it items :
  count f (it :: items) = (if f it then 1 else 0) + count f items.
Proof.
  unfold count. simpl. destruct (f it); [|reflexivity].
  simpl List.length. lia.
Qed.

Lemma count_classes items :
  count (fun it => is_complete it && is_transfer it) items +
  count (fun it => is_complete it && negb (is_transfer it) && is_in_sync it) items +
  count (fun it => is_complete it && negb (is_transfer it) && negb (is_in_sync it))
        items =
  count is_complete items.
Proof.
  induction items as [|it r IH]; [reflexivity|]. rewrite !count_cons.
  rewrite <- IH.
  destruct (is_complete it), (is_transfer it), (is_in_sync it);
    cbn [andb negb]; lia.
Qed.

Lemma count_nonneg f items : 0 <= count f items.
Proof. unfold count. lia. Qed.

Lemma well_formed_cons it items :
  well_formed O (it :: items) ->
  (is_complete it = true -> exists total, int O (tottrf_sz it) = Ok total) /\
  well_formed O items.
Proof.
  intros H. split.
  - apply H. left; reflexivity.
  - intros x Hx. apply H. right; exact Hx.
Qed.

Lemma complete_totals_cons it items :
  complete_totals O (it :: items) =
  (if is_complete it then
     match int O (tottrf_sz it) with
     | Ok total => [total]
     | Raise _ => []
     end
   else []) ++ complete_totals O items.
Proof. reflexivity. Qed.

(** A loop over a response that runs to its end has derived a size for
    every complete record and moved the counters by the number of records
    of each class; every complete record carried a running total that
    [int] accepts. *)
Lemma upload_items_ok items : forall last s s',
  upload_items O items last s = (Ok tt, s') ->
  well_formed O items /\
  transfer_sizes s' =
    transfer_sizes s ++ differences last (complete_totals O items) /\
  files_considered_for_backup s' =
    files_considered_for_backup s + count is_complete items /\
  files_backed_up_now s' =
    files_backed_up_now s +
    count (fun it => is_complete it && is_transfer it) items /\
  files_already_present s' =
    files_already_present s +
    count (fun it => is_complete it && negb (is_transfer it) && is_in_sync it)
          items /\
  files_failed_to_backup s' =
    files_failed_to_backup s +
    count (fun it => is_complete it && negb (is_transfer it) && negb (is_in_sync it))
          items.
Proof.
  induction items as [|it rest IH]; intros last s s'.
  - intros [= <-]. unfold count. simpl. rewrite app_nil_r, !Z.add_0_r.
    split; [intros x []|]. tauto.
  - simpl upload_items. rewrite !count_cons, complete_totals_cons.
    destruct (is_complete it) eqn:Hc.
    + destruct (upload_item O it last s) as [[last'|e] s1] eqn:E1; [|discriminate].
      destruct (upload_item_ok it last s last' s1 Hc E1)
        as (Hint & Hsz & Hco & Hb & Hp & Hf & _).
      intros E. apply IH in E.
      destruct E as (Hwf & Hsz' & Hco' & Hb' & Hp' & Hf').
      rewrite Hint. split.
      { intros x [<- | Hx] Hx'; [exists last'; exact Hint | apply Hwf; assumption]. }
      rewrite Hsz', Hco', Hb', Hp', Hf', Hsz, Hco, Hb, Hp, Hf.
      cbn [andb negb differences app].
      split; [rewrite <- app_assoc; reflexivity|].
      destruct (is_transfer it), (is_in_sync it); cbn [andb negb];
        repeat split; lia.
    + rewrite (upload_item_incomplete it last s Hc).
      intros E. apply IH in E.
      destruct E as (Hwf & Hsz' & Hco' & Hb' & Hp' & Hf').
      split.
      { intros x [<- | Hx] Hx'; [congruence | apply Hwf; assumption]. }
      rewrite Hsz', Hco', Hb', Hp', Hf'. cbn [andb app].
      repeat split; try reflexivity; lia.
Qed.

Lemma in_range_cons it items :
  in_range O (it :: items) ->
  (forall total, is_complete it = true -> int O (tottrf_sz it) = Ok total ->
                 Z.abs total < 2 ^ 1022) /\
  in_range O items.
Proof.
  unfold in_range. intros H. split.
  - intros total Hc Hint. apply H. rewrite complete_totals_cons, Hc, Hint.
    left; reflexivity.
  - intros total Ht. apply H. rewrite complete_totals_cons.
    apply in_or_app. right; exact Ht.
Qed.

Lemma pow_1023 : 2 ^ 1023 = 2 ^ 1022 + 2 ^ 1022.
Proof. change 1023 with (Z.succ 1022). rewrite Z.pow_succ_r by lia. lia. Qed.

(** The loop over a well-formed response whose totals fit runs to its
    end. *)
Lemma upload_items_safe items : forall last s,
  well_formed O items -> in_range O items -> Z.abs last < 2 ^ 1022 ->
  exists s', upload_items O items last s = (Ok tt, s').
Proof.
  induction items as [|it rest IH]; intros last s Hwf Hin Hlast.
  - exists s. reflexivity.
  - apply well_formed_cons in Hwf. destruct Hwf as [Hit Hrest].
    apply in_range_cons in Hin. destruct Hin as [Hrange Hin].
    simpl upload_items. destruct (is_complete it) eqn:Hc.
    + destruct (Hit eq_refl) as [total Ht].
      pose proof (Hrange total eq_refl Ht) as Htot.
      destruct (upload_item_safe it last s total Hc Ht) as [s1 E1].
      { rewrite pow_1023. lia. }
      rewrite E1. apply IH; assumption.
    + rewrite (upload_item_incomplete it last s Hc). apply IH; assumption.
Qed.

(** The loop over a well-formed response whose totals fit runs to its
    end and moves the counters by the number of records of each class. *)
Lemma upload_items_complete items : forall last s,
  well_formed O items -> in_range O items -> Z.abs last < 2 ^ 1022 ->
  exists s',
    upload_items O items last s = (Ok tt, s') /\
    transfer_sizes s' =
      transfer_sizes s ++ differences last (complete_totals O items) /\
    files_considered_for_backup s' =
      files_considered_for_backup s + count is_complete items /\
    files_backed_up_now s' =
      files_backed_up_now s +
      count (fun it => is_complete it && is_transfer it) items /\
    files_already_present s' =
      files_already_present s +
      count (fun it => is_complete it && negb (is_transfer it) && is_in_sync it)
            items /\
    files_failed_to_backup s' =
      files_failed_to_backup s +
      count (fun it => is_complete it && negb (is_transfer it) && negb (is_in_sync it))
            items.
Proof.
  intros last s Hwf Hin Hlast.
  destruct (upload_items_safe items last s Hwf Hin Hlast) as [s' E].
  exists s'. split; [exact E|]. apply upload_items_ok in E. tauto.
Qed.

Lemma nth_differences totals : forall previous i,
  (i < List.length totals)%nat ->
  nth i (differences previous totals) 0 =
  nth i totals 0 - match i with 0%nat => previous | S j => nth j totals 0 end.
Proof.
  induction totals as [|t r IH]; simpl; intros previous i Hi; [lia|].
  destruct i as [|i]; [reflexivity|]. rewrite IH by lia.
  destruct i; reflexivity.
Qed.

Lemma length_differences totals : forall previous,
  List.length (differences previous totals) = List.length totals.
Proof. induction totals; simpl; intros; [reflexivity | f_equal; auto]. Qed.

(** Whatever the outcome of the loop, the sizes derived are the first
    differences of the running totals of the complete records. *)
Lemma upload_items_sizes items : forall last s r s',
  upload_items O items last s = (r, s') ->
  exists n,
    transfer_sizes s' =
    transfer_sizes s ++ firstn n (differences last (complete_totals O items)).
Proof.
  induction items as [|it rest IH]; intros last s r s'.
  - intros [= <- <-]. exists 0%nat. simpl. symmetry. apply app_nil_r.
  - simpl upload_items. rewrite complete_totals_cons.
    destruct (is_complete it) eqn:Hc.
    + destruct (int O (tottrf_sz it)) as [total|e] eqn:Hint.
      * destruct (upload_item O it last s) as [r1 s1] eqn:E1.
        destruct (upload_item_size it last s total r1 s1 Hc Hint E1)
          as [Hsz [-> | [e ->]]].
        -- intros E. apply IH in E. destruct E as [n Hn]. exists (S n).
           rewrite Hn, Hsz. cbn [app differences firstn].
           rewrite <- app_assoc. reflexivity.
        -- intros [= <- <-]. exists 1%nat. rewrite Hsz.
           cbn [app differences firstn]. reflexivity.
      * rewrite (upload_item_rejected it last s e Hc Hint).
        intros [= <- <-]. exists 0%nat. simpl. symmetry. apply app_nil_r.
    + rewrite (upload_item_incomplete it last s Hc). apply IH.
Qed.

End Records.

(** ** [upload_files] on a batch response *)

Lemma length_complete_totals (O : oracle) (items : list item) :
  well_formed O items ->
  Z.of_nat (List.length (complete_totals O items)) = count is_complete items.
Proof.
  induction items as [|it r IH]; intros Hwf; [reflexivity|].
  apply well_formed_cons in Hwf. destruct Hwf as [Hit Hr].
  rewrite count_cons, <- (IH Hr). unfold complete_totals. simpl flat_map.
  destruct (is_complete it); [|simpl; lia].
  destruct (Hit eq_refl) as [t ->]. simpl List.length. lia.
Qed.

Lemma upload_files_answered (O : oracle) (s : state) (items : list item) :
  run_util_items O (List.length (uploaded s)) (files s) = Ok items ->
  upload_files O s =
  upload_items O items 0 (record_upload (files s) (set_files [] s)).
Proof.
  intros H. unfold upload_files. cbv zeta.
  change (List.length (uploaded (set_files [] s))) with (List.length (uploaded s)).
  rewrite H. reflexivity.
Qed.

Lemma nth_firstn_below {A : Type} (l : list A) (d : A) : forall n i,
  (i < List.length (firstn n l))%nat -> nth i (firstn n l) d = nth i l d.
Proof.
  induction l as [|x l IH]; intros n i Hi.
  - rewrite firstn_nil in Hi. simpl in Hi. lia.
  - destruct n as [|n]; [simpl in Hi; lia|].
    destruct i as [|i]; [reflexivity|]. simpl in *. apply IH. lia.
Qed.

(** Scenario of the specification: a response with a full transfer up to
    1000 and a file in sync up to 1500 logs 1000 B for the first record,
    logs no size for the second, and counts two files considered, one
    backed up and one already present. *)
Example scenario_two_records :
  let s := set_files [Path "/a/f1.txt"; Path "/a/f2.txt"] (start (mkconfig [] [])) in
  let s' := snd (upload_files Demo.demo s) in
  fst (upload_files Demo.demo s) = Ok tt /\
  logfile s' = [Starting;
                Transferred (1000 # 1) "B" (Some "1kB/s") (Some "a/f1.txt")] /\
  files_considered_for_backup s' = 2 /\ files_backed_up_now s' = 1 /\
  files_already_present s' = 1 /\ files_failed_to_backup s' = 0 /\
  transfer_sizes s' = [1000; 500].
Proof. vm_compute. repeat split; reflexivity. Qed.

(** A full transfer whose running total is 10^400: the division of line
    133 raises [OverflowError] when the record is considered already and
    not yet counted as backed up, and no line is written. *)
Example scenario_overflow :
  let huge := String.append "1" (string_of_list_ascii (repeat "0"%char 400)) in
  let record := mkitem (Some "100%") (Some "a/f1.txt") (Some "FULL")
                       (Some "1kB/s") (Some huge) in
  let O := mkoracle Demo.demo_resolve Demo.demo_is_file Demo.demo_is_dir
                    Demo.demo_iterdir (fun _ _ => Ok [record]) Demo.int_decimal in
  let s := set_files [Path "/a/f1.txt"] (start (mkconfig [] [])) in
  let s' := snd (upload_files O s) in
  fst (upload_files O s) = Raise OverflowError /\
  logfile s' = [Starting] /\
  files_considered_for_backup s' = 1 /\ files_backed_up_now s' = 0 /\
  files_already_present s' = 0 /\ files_failed_to_backup s' = 0.
Proof. vm_compute. repeat split; reflexivity. Qed.

(** C3: a batch response that [upload_files] processes to its end, as it
    does every well-formed response whose running totals fit a float,
    makes [considered] grow by the number of records whose completion
    attribute is ["100%"], and makes [backed_up_now], [already_present]
    and [failed] grow by the numbers of such records of type FULL or
    INCREMENTAL, of type FILE IN SYNC, and of any other type, which add
    up to that same number. *)
Theorem counters_conserved (O : oracle) (s : state) (items : list item) :
  run_util_items O (List.length (uploaded s)) (files s) = Ok items ->
  (well_formed O items -> in_range O items ->
   exists s', upload_files O s = (Ok tt, s')) /\
  (forall s',
     upload_files O s = (Ok tt, s') ->
     files_considered_for_backup s' - files_considered_for_backup s =
       count is_complete items /\
     (files_backed_up_now s' - files_backed_up_now s) +
     (files_already_present s' - files_already_present s) +
     (files_failed_to_backup s' - files_failed_to_backup s) =
       count is_complete items /\
     files_backed_up_now s' - files_backed_up_now s =
       count (fun it => is_complete it && is_transfer it) items /\
     files_already_present s' - files_already_present s =
       count (fun it => is_complete it && negb (is_transfer it) && is_in_sync it)
             items /\
     files_failed_to_backup s' - files_failed_to_backup s =
       count (fun it => is_complete it && negb (is_transfer it) && negb (is_in_sync it))
             items).
Proof.
  intros Htool. rewrite (upload_files_answered O s items Htool). split.
  - intros Hwf Hin. apply upload_items_safe; try assumption.
    change (Z.abs 0) with 0. apply Z.pow_pos_nonneg; lia.
  - intros s' E. apply upload_items_ok in E.
    destruct E as (_ & _ & Hco & Hb & Hp & Hf). simpl in Hco, Hb, Hp, Hf.
    pose proof (count_classes items). repeat split; lia.
Qed.

Lemma demo_items_well_formed : well_formed Demo.demo Demo.demo_items.
Proof.
  intros it [<-|[<-|[<-|[]]]] _; eexists; vm_compute; reflexivity.
Defined.

Lemma demo_items_in_range : in_range Demo.demo Demo.demo_items.
Proof.
  intros total [<-|[<-|[]]]; vm_compute; reflexivity.
Defined.

Lemma counters_conserved_witness :
  let s := set_files [Path "/a/f1.txt"; Path "/a/f2.txt"] (start (mkconfig [] [])) in
  run_util_items Demo.demo (List.length (uploaded s)) (files s) = Ok Demo.demo_items /\
  well_formed Demo.demo Demo.demo_items /\
  in_range Demo.demo Demo.demo_items /\
  exists s',
    upload_files Demo.demo s = (Ok tt, s') /\
    files_considered_for_backup s' - files_considered_for_backup s = 2.
Proof.
  intros s. split; [reflexivity|]. split; [exact demo_items_well_formed|].
  split; [exact demo_items_in_range|].
  destruct (counters_conserved Demo.demo s Demo.demo_items eq_refl) as [Hret Hcount].
  destruct (Hret demo_items_well_formed demo_items_in_range) as [s' E].
  exists s'. split; [exact E | exact (proj1 (Hcount s' E))].
Defined.

(** C4, the part of the claim that fails: the utility may report running
    totals that go down, and the derived size is then negative. *)
Lemma transfer_size_negative :
  let s := set_files [Path "/a/f1.txt"; Path "/a/f2.txt"] (start (mkconfig [] [])) in
  let s' := snd (upload_files Demo.demo_decreasing s) in
  fst (upload_files Demo.demo_decreasing s) = Ok tt /\
  transfer_sizes s' = [1500; -500] /\
  ~ Forall (fun size => 0 <= size) (transfer_sizes s').
Proof.
  vm_compute. split; [reflexivity|]. split; [reflexivity|].
  intros H. inversion H as [|x l _ H2]. inversion H2 as [|y l' Hneg _].
  apply Hneg. reflexivity.
Qed.

(** C4, amended: for every batch response, whatever the outcome of
    [upload_files], the sizes it has derived are those of the first
    complete records, in order, one for every complete record when it
    returns normally; each one is the record's running total minus the
    running total of the complete record before it in the same response,
    zero for the first, whatever the earlier batches were; and it is
    non-negative exactly when the record's running total is not below
    that earlier one. *)
Theorem transfer_size_is_difference (O : oracle) (s : state) (items : list item)
  (r : result unit) (s' : state) :
  run_util_items O (List.length (uploaded s)) (files s) = Ok items ->
  upload_files O s = (r, s') ->
  exists sizes,
    transfer_sizes s' = transfer_sizes s ++ sizes /\
    (List.length sizes <= List.length (complete_totals O items))%nat /\
    (r = Ok tt -> Z.of_nat (List.length sizes) = count is_complete items) /\
    forall i, (i < List.length sizes)%nat ->
      nth i sizes 0 =
        nth i (complete_totals O items) 0 -
        previous_total (complete_totals O items) i /\
      (0 <= nth i sizes 0 <->
       previous_total (complete_totals O items) i <=
       nth i (complete_totals O items) 0).
Proof.
  intros Htool. rewrite (upload_files_answered O s items Htool). intros E.
  destruct (upload_items_sizes O items 0 _ r s' E) as [n Hn]. simpl in Hn.
  set (D := differences 0 (complete_totals O items)) in *.
  assert (List.length D = List.length (complete_totals O items)) as HD
    by apply length_differences.
  exists (firstn n D). split; [exact Hn|].
  assert (List.length (firstn n D) <= List.length (complete_totals O items))%nat
    as Hle by (rewrite length_firstn; lia).
  split; [exact Hle|]. split.
  - intros ->. apply upload_items_ok in E. destruct E as (Hwf & Hsz & _).
    simpl in Hsz. fold D in Hsz. rewrite Hn in Hsz. apply app_inv_head in Hsz.
    rewrite Hsz, HD. apply length_complete_totals. exact Hwf.
  - intros i Hi. rewrite nth_firstn_below by exact Hi.
    unfold D. rewrite nth_differences by lia.
    unfold previous_total. split; [reflexivity | lia].
Qed.

Lemma transfer_size_is_difference_witness :
  let s := set_files [Path "/a/f1.txt"; Path "/a/f2.txt"] (start (mkconfig [] [])) in
  run_util_items Demo.demo (List.length (uploaded s)) (files s) = Ok Demo.demo_items /\
  upload_files Demo.demo s = (fst (upload_files Demo.demo s), snd (upload_files Demo.demo s)) /\
  exists sizes,
    transfer_sizes (snd (upload_files Demo.demo s)) = transfer_sizes s ++ sizes /\
    (List.length sizes <= List.length (complete_totals Demo.demo Demo.demo_items))%nat.
Proof.
  intros s. split; [reflexivity|].
  assert (upload_files Demo.demo s =
          (fst (upload_files Demo.demo s), snd (upload_files Demo.demo s))) as E
    by apply surjective_pairing.
  split; [exact E|].
  destruct (transfer_size_is_difference Demo.demo s Demo.demo_items _ _ eq_refl E)
    as (sizes & Hsz & Hlen & _).
  exists sizes. split; [exact Hsz | exact Hlen].
Defined.

(** ** The logged size *)

Example scale_1024 : logged (scale 1024) = Ok (1024 # 1, "B").
Proof. vm_compute. reflexivity. Qed.

Example scale_1025 : logged (scale 1025) = Ok (Qdiv (1025 # 1) (1024 # 1), "kB").
Proof. vm_compute. reflexivity. Qed.

Example scale_1024_kB :
  logged (scale (1024 * 1024)) = Ok (Qdiv (1048576 # 1) (1024 # 1), "kB").
Proof. vm_compute. reflexivity. Qed.

Example scale_1024_MB :
  logged (scale (1024 * 1024 * 1024)) =
  Ok (Qdiv (Qdiv (1073741824 # 1) (1024 # 1)) (1024 # 1), "MB").
Proof. vm_compute. reflexivity. Qed.

Example scale_stops_at_GB :
  exists shown,
    logged (scale (5 * 1024 * 1024 * 1024 * 1024)) = Ok (shown, "GB") /\
    Qeq shown (5120 # 1).
Proof. eexists. split; [vm_compute; reflexivity | reflexivity]. Qed.

(** From 2^53 the division rounds: 2^53 + 1 bytes are logged as
    8388608.0 GB, the float nearest to the quotient. *)
Example scale_rounds :
  exists shown,
    logged (scale (2 ^ 53 + 1)) = Ok (shown, "GB") /\
    Qeq shown (8388608 # 1) /\
    ~ Qeq shown (Qdiv (inject_Z (2 ^ 53 + 1)) (1073741824 # 1)).
Proof.
  eexists. split; [vm_compute; reflexivity|]. split; [reflexivity|].
  intros H. vm_compute in H. discriminate.
Qed.

(** A size too large for a float: the division of an int raises, and so
    does the rendering of an int that was not divided. *)
Example scale_overflows :
  logged (scale (10 ^ 400)) = Raise OverflowError /\
  logged (scale (- 10 ^ 400)) = Raise OverflowError /\
  (exists shown, logged (scale (2 ^ 1033)) = Ok (shown, "GB")) /\
  logged (scale (2 ^ 1034)) = Raise OverflowError.
Proof.
  split; [vm_compute; reflexivity|]. split; [vm_compute; reflexivity|].
  split; [eexists; vm_compute; reflexivity | vm_compute; reflexivity].
Qed.

Lemma scale_exact_small (transfer_size : Z) :
  transfer_size <= 1024 -> scale_exact transfer_size = (inject_Z transfer_size, "B").
Proof.
  intros H. unfold scale_exact. simpl.
  assert (exceeds_1024 (inject_Z transfer_size) = false) as ->; [|reflexivity].
  unfold exceeds_1024, Qle_bool. simpl. apply negb_false_iff, Z.leb_le. lia.
Qed.

(** C6: for a complete record of type FULL or INCREMENTAL whose running
    total [int] accepts, the value and unit are obtained from the derived
    size by the loop that divides by 1024 and steps B, kB, MB, GB while
    the value exceeds 1024 and a unit is left, in the arithmetic of the
    code: the uploader writes one line with the float rendered and the
    unit, or, when a size too large for a float makes the division or the
    rendering raise, it raises and writes no line.  For a size of a
    magnitude below 2^53 the line is written, and value and unit are
    those of the loop in exact arithmetic; a size of at most 1024 is
    logged as it is, in B. *)
Theorem logged_size_scaled (O : oracle) (it : item) (last : Z) (s : state)
  (total : Z) :
  is_complete it = true ->
  is_transfer it = true ->
  int O (tottrf_sz it) = Ok total ->
  match logged (scale_spec (total - last)) with
  | Ok (shown, unit) =>
      exists s',
        upload_item O it last s = (Ok total, s') /\
        logfile s' =
          logfile s ++ [Transferred shown unit (rate_trf it) (fname it)]
  | Raise e =>
      exists s', upload_item O it last s = (Raise e, s') /\ logfile s' = logfile s
  end /\
  (Z.abs (total - last) < 2 ^ 53 ->
   logged (scale_spec (total - last)) = Ok (scale_exact (total - last))) /\
  (Z.abs (total - last) < 2 ^ 53 -> total - last <= 1024 ->
   logged (scale_spec (total - last)) = Ok (inject_Z (total - last), "B")).
Proof.
  intros Hc Ht Hint. split; [|split].
  - rewrite (upload_item_equation O it last s total Hc Hint), Ht. cbv zeta.
    rewrite scale_is_scale_spec.
    destruct (logged (scale_spec (total - last))) as [[shown unit]|e];
      eexists; split; reflexivity.
  - apply logged_exact.
  - intros Hb Hs. rewrite (logged_exact _ Hb), (scale_exact_small _ Hs). reflexivity.
Qed.

Lemma logged_size_scaled_witness :
  let it := mkitem (Some "100%") (Some "a/f1.txt") (Some "FULL") (Some "1kB/s")
                   (Some "3072") in
  let s := start (mkconfig [] []) in
  is_complete it = true /\ is_transfer it = true /\
  int Demo.demo (tottrf_sz it) = Ok 3072 /\
  Z.abs (3072 - 1024) < 2 ^ 53 /\
  logged (scale_spec (3072 - 1024)) = Ok (scale_exact (3072 - 1024)).
Proof.
  intros it s. split; [reflexivity|]. split; [reflexivity|].
  split; [reflexivity|].
  assert (Z.abs (3072 - 1024) < 2 ^ 53) as Hb by (vm_compute; reflexivity).
  split; [exact Hb|].
  exact (proj1 (proj2 (logged_size_scaled Demo.demo it 1024 s 3072
                         eq_refl eq_refl eq_refl)) Hb).
Defined.

Example logged_size_example :
  let it := mkitem (Some "100%") (Some "a/f1.txt") (Some "FULL") (Some "1kB/s")
                   (Some "3072") in
  let s := start (mkconfig [] []) in
  upload_item Demo.demo it 1024 s =
  (Ok 3072,
   incr_backed_up_now
     (write (Transferred (Qdiv (2048 # 1) (1024 # 1)) "kB" (Some "1kB/s")
                         (Some "a/f1.txt"))
            (incr_considered (record_transfer_size 2048 s)))).
Proof. vm_compute. reflexivity. Qed.

(** ** The scheduling loop *)



(** When the interval has elapsed to the microsecond, a run starts. *)
Example schedule_boundary : schedule (Some 700) 300 1000 = (StartRun, Some 1000).
Proof. reflexivity. Qed.

(** ** A failing upload *)

Section FailingUpload.

Variable O : oracle.
Variable excludes : list path.

Lemma upload_files_raise s e :
  run_util_items O (List.length (uploaded s)) (files s) = Raise e ->
  upload_files O s = (Raise e, record_upload (files s) (set_files [] s)).
Proof.
  intros H. unfold upload_files. cbv zeta.
  change (List.length (uploaded (set_files [] s))) with (List.length (uploaded s)).
  rewrite H. reflexivity.
Qed.

Lemma steps_ended fuel : forall s,
  run_status s <> Walking -> steps O excludes fuel s = s.
Proof.
  induction fuel as [|n IH]; simpl; intros s H; [reflexivity|].
  assert (step O excludes s = s) as ->; [|apply IH; exact H].
  unfold step. destruct (run_status s); [contradiction | reflexivity | reflexivity].
Qed.

Lemma no_call_absurd (l : list (list path)) (b : list path) (P : Prop) :
  l = l ++ [b] -> P.
Proof.
  intros H. apply (f_equal (@List.length (list path))) in H.
  rewrite length_app in H. simpl in H. lia.
Qed.

Lemma visit_call include_ s r s' b :
  visit O excludes include_ s = (r, s') ->
  uploaded s' = uploaded s ++ [b] ->
  b = files s ++ [include_] /\
  upload_files O (set_files (files s ++ [include_]) s) = (r, s').
Proof.
  unfold visit. destruct (find_exclude excludes include_).
  { intros [= <- <-] H. simpl in H. eapply no_call_absurd; exact H. }
  destruct (is_file O include_).
  - cbv zeta. destruct (Nat.eqb _ 1000).
    + intros E H. split; [|exact E]. apply upload_files_frame in E.
      destruct E as (_ & _ & _ & Hu & _). simpl in Hu. rewrite Hu in H.
      apply app_inv_head in H. congruence.
    + intros [= <- <-] H. simpl in H. eapply no_call_absurd; exact H.
  - destruct (is_dir O include_).
    + destruct (iterdir O include_) as [children|[]]; intros [= <- <-] H;
        simpl in H; eapply no_call_absurd; exact H.
    + intros [= <- <-] H. simpl in H. eapply no_call_absurd; exact H.
Qed.

Lemma after_walk_call s r s' b e :
  after_walk O s = (r, s') ->
  uploaded s' = uploaded s ++ [b] ->
  run_util_items O (List.length (uploaded s)) b = Raise e ->
  r = Raise e /\ files s' = [].
Proof.
  unfold after_walk. destruct (Nat.ltb 0 (List.length (files s))).
  - destruct (upload_files O s) as [r1 s1] eqn:E1.
    pose proof (upload_files_frame O s r1 s1 E1) as (_ & _ & Hf & Hu & _).
    destruct r1 as [[]|e1].
    + destruct (files_failed_to_backup s1 =? 0); intros [= <- <-] H Hr;
        simpl in H; rewrite Hu in H; apply app_inv_head in H;
        injection H as <-; rewrite (upload_files_raise s e Hr) in E1;
        discriminate.
    + intros [= <- <-] H Hr. rewrite Hu in H. apply app_inv_head in H.
      injection H as <-. rewrite (upload_files_raise s e Hr) in E1.
      split; [congruence | exact Hf].
  - destruct (files_failed_to_backup s =? 0); intros [= <- <-] H Hr;
      simpl in H; eapply no_call_absurd; exact H.
Qed.

Lemma step_call_raises s b e :
  run_status s = Walking ->
  uploaded (step O excludes s) = uploaded s ++ [b] ->
  run_util_items O (List.length (uploaded s)) b = Raise e ->
  run_status (step O excludes s) = Raised e /\ files (step O excludes s) = [].
Proof.
  intros Hst. unfold step. rewrite Hst.
  destruct (pop (includes s)) as [[rest popped]|].
  - unfold iteration.
    destruct (try_resolve O popped (set_includes rest s)) as [[q|e0] s1] eqn:E1;
      apply try_resolve_frame in E1; simpl in E1;
      destruct E1 as (_ & Hf & Hu & _).
    + destruct (visit O excludes q s1) as [r s'] eqn:E2.
      intros H Hr.
      assert (uploaded s' = uploaded s1 ++ [b]) as H'
        by (rewrite Hu; destruct r; exact H).
      destruct (visit_call q s1 r s' b E2 H') as [Hb E3].
      rewrite (upload_files_raise _ e) in E3
        by (simpl; rewrite Hu, <- Hb; exact Hr).
      injection E3 as <- <-. split; reflexivity.
    + intros H _. simpl in H. rewrite Hu in H. eapply no_call_absurd; exact H.
  - destruct (after_walk O s) as [r s'] eqn:E. intros H Hr.
    assert (uploaded s' = uploaded s ++ [b]) as H' by (destruct r; exact H).
    destruct (after_walk_call s r s' b e E H' Hr) as [-> Hf].
    split; [reflexivity | exact Hf].
Qed.

End FailingUpload.

(** C10: [upload_files] always leaves the pending queue empty and hands
    the utility the files that were pending, whether the utility answers
    or fails.  When the utility fails, [upload_files] raises with the
    queue already empty; a turn of the run that made the failing call ends
    the run with the queue empty, so that no later step makes a call. *)
Theorem queue_cleared_before_upload (O : oracle) (excludes : list path)
  (s : state) :
  (forall r s', upload_files O s = (r, s') ->
                files s' = [] /\ uploaded s' = uploaded s ++ [files s]) /\
  (forall e, run_util_items O (List.length (uploaded s)) (files s) = Raise e ->
             upload_files O s =
             (Raise e, record_upload (files s) (set_files [] s))) /\
  (forall b e,
     run_status s = Walking ->
     uploaded (step O excludes s) = uploaded s ++ [b] ->
     run_util_items O (List.length (uploaded s)) b = Raise e ->
     run_status (step O excludes s) = Raised e /\
     files (step O excludes s) = [] /\
     forall fuel, steps O excludes fuel (step O excludes s) = step O excludes s).
Proof.
  split; [|split].
  - intros r s' E. apply upload_files_frame in E. tauto.
  - intros e. apply upload_files_raise.
  - intros b e Hst Hu Hr.
    destruct (step_call_raises O excludes s b e Hst Hu Hr) as [H1 H2].
    split; [exact H1|]. split; [exact H2|].
    intros fuel. apply steps_ended. rewrite H1. discriminate.
Qed.

Lemma queue_cleared_before_upload_witness :
  let O := Demo.demo_failing in
  let s := run_backup O (mkconfig ["/a"] []) 3 in
  let b := [Path "/a/f2.txt"; Path "/a/f1.txt"] in
  run_status s = Walking /\
  uploaded (step O [] s) = uploaded s ++ [b] /\
  run_util_items O (List.length (uploaded s)) b = Raise CalledProcessError /\
  run_status (step O [] s) = Raised CalledProcessError /\
  files (step O [] s) = [] /\
  forall fuel, steps O [] fuel (step O [] s) = step O [] s.
Proof.
  intros O s b.
  assert (run_status s = Walking) as H1 by (vm_compute; reflexivity).
  assert (uploaded (step O [] s) = uploaded s ++ [b]) as H2
    by (vm_compute; reflexivity).
  assert (run_util_items O (List.length (uploaded s)) b = Raise CalledProcessError)
    as H3 by reflexivity.
  split; [exact H1|]. split; [exact H2|]. split; [exact H3|].
  exact (proj2 (proj2 (queue_cleared_before_upload O [] s))
           b CalledProcessError H1 H2 H3).
Defined.

(** ** A candidate whose resolution fails *)

(** C5 does not hold of the code.  When the first candidate popped fails
    to resolve, the handler reads [include] before it was ever bound and
    the run ends on [UnboundLocalError] with no skip line written.  When a
    later candidate fails to resolve, the skip line names the candidate of
    the turn before, and that candidate is visited a second time: here
    [/a/f1.txt] is queued twice. *)
Theorem broken_link_not_skipped :
  (let s := run_backup Demo.demo (mkconfig ["/b"] []) 1 in
   run_status s = Raised UnboundLocalError /\ logfile s = [Starting]) /\
  (let s := run_backup Demo.demo (mkconfig ["/b"; "/a/f1.txt"] []) 3 in
   run_status s = Returned /\
   logfile s = [Starting; SkipBrokenLink (Path "/a/f1.txt");
                Transferred (1000 # 1) "B" (Some "1kB/s") (Some "a/f1.txt");
                FinishedSuccessful 1] /\
   uploaded s = [[Path "/a/f1.txt"; Path "/a/f1.txt"]] /\
   emitted s = [Path "/a/f1.txt"; Path "/a/f1.txt"]).
Proof. vm_compute. repeat split; reflexivity. Qed.

(** ** Excludes that are not canonical *)

Section Canonical.

Variable O : oracle.
Hypothesis Hcanon : resolves_canonically O.

Lemma canonicalb_true p : canonicalb O p = true <-> resolve O p = Ok p.
Proof.
  unfold canonicalb. destruct (resolve O p) as [q|e].
  - rewrite path_eqb_eq. split; congruence.
  - split; discriminate.
Qed.

Lemma noncanonical_no_match e q :
  canonicalb O e = false -> resolve O q = Ok q -> matches q e = false.
Proof.
  intros He Hq. destruct (matches q e) eqn:Hm; [|reflexivity].
  apply matches_iff in Hm.
  assert (resolve O e = Ok e) as H.
  { destruct Hm as [-> | Hd]; [exact Hq|].
    apply In_parents_descendant in Hd. exact (proj2 Hcanon q e Hq Hd). }
  apply canonicalb_true in H. congruence.
Qed.

Lemma find_exclude_filter excludes q :
  resolve O q = Ok q ->
  find_exclude excludes q = find_exclude (filter (canonicalb O) excludes) q.
Proof.
  intros Hq. unfold find_exclude.
  induction excludes as [|x r IH]; simpl; [reflexivity|].
  destruct (canonicalb O x) eqn:Hx; simpl.
  - destruct (matches q x); [reflexivity | exact IH].
  - rewrite (noncanonical_no_match x q Hx Hq). exact IH.
Qed.

Lemma visit_filter excludes q s :
  resolve O q = Ok q ->
  visit O excludes q s = visit O (filter (canonicalb O) excludes) q s.
Proof.
  intros Hq. unfold visit. rewrite <- (find_exclude_filter excludes q Hq).
  reflexivity.
Qed.

Lemma try_resolve_resolved popped s r s' :
  include_resolved O s ->
  try_resolve O popped s = (r, s') ->
  include_resolved O s' /\
  match r with Ok q => resolve O q = Ok q | Raise _ => True end.
Proof.
  unfold try_resolve, include_resolved.
  destruct (resolve O popped) as [q|[]] eqn:E;
    try (intros H [= <- <-]; simpl; tauto).
  - intros _ [= <- <-]. simpl.
    pose proof (proj1 Hcanon popped q E). tauto.
  - destruct (include s) as [stale|] eqn:Hi; intros H [= <- <-]; simpl.
    + rewrite Hi. tauto.
    + rewrite Hi. tauto.
Qed.

Lemma after_walk_include s r s' :
  after_walk O s = (r, s') -> include s' = include s.
Proof.
  unfold after_walk. destruct (Nat.ltb 0 (List.length (files s))).
  - destruct (upload_files O s) as [[[]|e] s1] eqn:E1;
      apply upload_files_frame in E1; destruct E1 as (_ & Hi & _).
    + destruct (files_failed_to_backup s1 =? 0); intros [= <- <-]; exact Hi.
    + intros [= <- <-]; exact Hi.
  - destruct (files_failed_to_backup s =? 0); intros [= <- <-]; reflexivity.
Qed.

Lemma step_filter excludes s :
  include_resolved O s ->
  step O excludes s = step O (filter (canonicalb O) excludes) s /\
  include_resolved O (step O excludes s).
Proof.
  intros Hinv. unfold step. destruct (run_status s); try (split; [reflexivity | exact Hinv]).
  destruct (pop (includes s)) as [[rest popped]|].
  - unfold iteration.
    destruct (try_resolve O popped (set_includes rest s)) as [[q|e] s1] eqn:E1;
      apply try_resolve_resolved in E1; try exact Hinv;
      destruct E1 as [Hinv1 Hq].
    + rewrite <- (visit_filter excludes q s1 Hq). split; [reflexivity|].
      destruct (visit O excludes q s1) as [r s2] eqn:E2.
      apply visit_queue in E2. destruct E2 as (_ & Hi & _).
      unfold include_resolved in *. destruct r; simpl; rewrite Hi; exact Hinv1.
    + split; [reflexivity | exact Hinv1].
  - split; [reflexivity|].
    destruct (after_walk O s) as [r s1] eqn:E. apply after_walk_include in E.
    unfold include_resolved in *. destruct r; simpl; rewrite E; exact Hinv.
Qed.

Lemma steps_filter excludes fuel : forall s,
  include_resolved O s ->
  steps O excludes fuel s = steps O (filter (canonicalb O) excludes) fuel s.
Proof.
  induction fuel as [|n IH]; simpl; intros s Hinv; [reflexivity|].
  destruct (step_filter excludes s Hinv) as [<- Hinv']. apply IH. exact Hinv'.
Qed.

Lemma map_Path_filter (l : list string) :
  map Path (filter (fun x => canonicalb O (Path x)) l) =
  filter (canonicalb O) (map Path l).
Proof.
  induction l as [|x r IH]; simpl; [reflexivity|].
  destruct (canonicalb O (Path x)); simpl; rewrite IH; reflexivity.
Qed.

End Canonical.

(** An exclude with a [".."] component never matches a candidate, since
    a resolved path has none. *)
Lemma dotdot_exclude_never_matches (O : oracle) (e c q : path) :
  (forall p r, resolve O p = Ok r -> ~ In ".." (names r)) ->
  In ".." (names e) -> resolve O c = Ok q -> matches q e = false.
Proof.
  intros Hres He Hq. destruct (matches q e) eqn:Hm; [|reflexivity].
  exfalso. apply (Hres c q Hq). apply matches_iff in Hm.
  destruct Hm as [<- | (_ & suffix & _ & ->)]; [exact He|].
  apply in_or_app. left; exact He.
Qed.

(** C9: the excludes are compared as configured and the candidates as
    resolved.  Where resolution yields canonical paths, an exclude that
    is not canonical matches no resolved candidate; the run is the one
    that the configuration without such excludes gives; and a regular
    file that no canonical exclude matches is emitted. *)
Theorem noncanonical_exclude_ignored (O : oracle) (e : path) :
  resolves_canonically O ->
  canonicalb O e = false ->
  (forall c q, resolve O c = Ok q -> matches q e = false) /\
  (forall c fuel,
     run_backup O c fuel =
     run_backup O (mkconfig (config_includes c)
                            (filter (fun x => canonicalb O (Path x))
                                    (config_excludes c))) fuel) /\
  (forall excludes q s,
     resolve O q = Ok q -> is_file O q = true ->
     (forall x, In x excludes -> canonicalb O x = true -> matches q x = false) ->
     exists r s', visit O excludes q s = (r, s') /\ emitted s' = emitted s ++ [q]).
Proof.
  intros Hcanon He. split; [|split].
  - intros c q Hq. apply (noncanonical_no_match O Hcanon e q He).
    exact (proj1 Hcanon c q Hq).
  - intros c fuel. unfold run_backup. simpl config_excludes.
    rewrite map_Path_filter. apply steps_filter; [exact Hcanon | exact I].
  - intros excludes q s Hq Hf Hx.
    destruct (visit O excludes q s) as [r s'] eqn:E. exists r, s'.
    split; [reflexivity|].
    assert (find_exclude excludes q = None) as Hnone.
    { rewrite (find_exclude_filter O Hcanon excludes q Hq).
      apply find_exclude_None. intros x Hin. apply filter_In in Hin.
      destruct Hin as [Hin Hc]. specialize (Hx x Hin Hc).
      split; intros X; assert (matches q x = true) as Y
        by (apply matches_iff; auto); congruence. }
    revert E. unfold visit. rewrite Hnone, Hf. cbv zeta.
    destruct (Nat.eqb _ 1000).
    + intros E. apply upload_files_emitted in E. rewrite E.
      unfold emitted. simpl. apply app_assoc.
    + intros [= <- <-]. unfold emitted. simpl. apply app_assoc.
Qed.

Lemma demo_resolves_canonically : resolves_canonically Demo.demo.
Proof.
  split.
  - intros p q. simpl. unfold Demo.demo_resolve.
    destruct (names p) as [|h r]; [intros [= <-]; reflexivity|].
    destruct (String.eqb h "b") eqn:Hb; [discriminate|].
    destruct (String.eqb h "link") eqn:Hl; intros [= <-]; simpl;
      [reflexivity | rewrite Hb, Hl; reflexivity].
  - intros [rq nq] [ra na] Hq Ha. apply In_parents_descendant in Ha.
    destruct Ha as (Hr & suffix & Hne & Hn). simpl in *. subst rq nq.
    unfold Demo.demo_resolve in *. simpl in *.
    destruct na as [|h r]; simpl in *.
    + destruct suffix as [|h' r']; [contradiction|].
      destruct (String.eqb h' "b"); [discriminate|].
      destruct (String.eqb h' "link"); injection Hq as <-; reflexivity.
    + destruct (String.eqb h "b") eqn:Hb; [discriminate|].
      destruct (String.eqb h "link") eqn:Hl.
      * injection Hq as _ <-. discriminate.
      * injection Hq as <-. reflexivity.
Defined.

Lemma noncanonical_exclude_ignored_witness :
  resolves_canonically Demo.demo /\
  canonicalb Demo.demo (Path "/link/f2.txt") = false /\
  matches (Path "/a/f2.txt") (Path "/link/f2.txt") = false.
Proof.
  split; [exact demo_resolves_canonically|]. split; [reflexivity|].
  exact (proj1 (noncanonical_exclude_ignored Demo.demo (Path "/link/f2.txt")
                  demo_resolves_canonically eq_refl)
               (Path "/link/f2.txt") (Path "/a/f2.txt") eq_refl).
Defined.

(** With [/link] a symbolic link to [/a], excluding [/link/f2.txt] does
    not keep [/a/f2.txt] from being emitted, while excluding [/a/f2.txt]
    does. *)
Example scenario_exclude_through_link :
  emitted (run_backup Demo.demo (mkconfig ["/a"] ["/link/f2.txt"]) 5) =
  [Path "/a/f2.txt"; Path "/a/f1.txt"] /\
  emitted (run_backup Demo.demo (mkconfig ["/link"] ["/a/f2.txt"]) 5) =
  [Path "/a/f1.txt"].
Proof. vm_compute. split; reflexivity. Qed.

(** * Further properties of the run *)

(** ** Counters and records along a run *)

Section RunInvariants.

Variable O : oracle.
Variable excludes : list path.

Lemma extends_refl s : extends s s.
Proof.
  unfold extends. repeat split; try lia; exists []; symmetry; apply app_nil_r.
Qed.

Lemma extends_trans s1 s2 s3 : extends s1 s2 -> extends s2 s3 -> extends s1 s3.
Proof.
  unfold extends.
  intros (A1 & A2 & A3 & A4 & (l1 & L1) & (u1 & U1) & (e1 & E1))
         (B1 & B2 & B3 & B4 & (l2 & L2) & (u2 & U2) & (e2 & E2)).
  repeat split; try lia.
  - exists (l1 ++ l2). rewrite L2, L1. symmetry; apply app_assoc.
  - exists (u1 ++ u2). rewrite U2, U1. symmetry; apply app_assoc.
  - exists (e1 ++ e2). rewrite E2, E1. symmetry; apply app_assoc.
Qed.

Ltac grown :=
  first [ exists []; simpl; rewrite ?app_nil_r; reflexivity
        | eexists; simpl; reflexivity
        | eexists; unfold emitted; simpl; rewrite <- ?app_assoc; reflexivity ].

Ltac extends_by_computation :=
  unfold extends, emitted; simpl; repeat split; try lia; grown.

Lemma balanced_nearly s : balanced s -> nearly_balanced s.
Proof. unfold balanced, nearly_balanced. intros H. tauto. Qed.

Lemma settled_same {A B : Type} (r : result A) (r' : result B) s :
  (forall a, r = Ok a -> exists b, r' = Ok b) ->
  settled r' s -> settled r s.
Proof.
  intros H. destruct r as [a|e]; simpl.
  - destruct (H a eq_refl) as [b ->]. simpl. tauto.
  - destruct r'; simpl; [apply balanced_nearly | tauto].
Qed.

Lemma upload_item_extends it last s r s' :
  upload_item O it last s = (r, s') ->
  extends s s' /\ (balanced s -> settled r s').
Proof.
  unfold upload_item.
  destruct (negb (attr_is (per it) "100%"));
    [intros [= <- <-]; split; [apply extends_refl | simpl; tauto]|].
  destruct (int O (tottrf_sz it));
    [|intros [= <- <-]; split; [apply extends_refl | apply balanced_nearly]].
  destruct (_ || _).
  - destruct (logged _) as [[size unit]|e]; intros [= <- <-]; split;
      try extends_by_computation;
      unfold settled, balanced, nearly_balanced; simpl; lia.
  - destruct (attr_is _ "FILE IN SYNC"); intros [= <- <-]; split;
      try extends_by_computation; unfold settled, balanced; simpl; lia.
Qed.

Lemma upload_items_extends items : forall last s r s',
  upload_items O items last s = (r, s') ->
  extends s s' /\ (balanced s -> settled r s').
Proof.
  induction items as [|it rest IH]; simpl; intros last s r s'.
  - intros [= <- <-]. split; [apply extends_refl | simpl; tauto].
  - destruct (upload_item O it last s) as [[last'|e] s1] eqn:E1;
      apply upload_item_extends in E1; destruct E1 as [X1 B1].
    + intros E2. apply IH in E2. destruct E2 as [X2 B2].
      split; [exact (extends_trans _ _ _ X1 X2) | intros B; apply B2, B1, B].
    + intros [= <- <-]. split; assumption.
Qed.

Lemma upload_files_extends s r s' :
  upload_files O s = (r, s') ->
  extends s s' /\ (balanced s -> settled r s').
Proof.
  unfold upload_files.
  assert (extends s (record_upload (files s) (set_files [] s))) as X0.
  { unfold extends, emitted. simpl. repeat split; try lia; try grown.
    exists []. rewrite concat_app. simpl. rewrite !app_nil_r. reflexivity. }
  destruct (run_util_items O _ _) as [items|e].
  - intros E. apply upload_items_extends in E. destruct E as [X B].
    split; [exact (extends_trans _ _ _ X0 X) | exact B].
  - intros [= <- <-]. split; [exact X0 | apply balanced_nearly].
Qed.

Lemma try_resolve_extends popped s r s' :
  try_resolve O popped s = (r, s') ->
  extends s s' /\ (balanced s -> balanced s').
Proof.
  unfold try_resolve. destruct (resolve O popped) as [q|[]];
    try (intros [= <- <-]; split; [extends_by_computation | tauto]).
  destruct (include s); intros [= <- <-];
    (split; [extends_by_computation | tauto]).
Qed.

Lemma visit_extends include_ s r s' :
  visit O excludes include_ s = (r, s') ->
  extends s s' /\ (balanced s -> settled r s').
Proof.
  unfold visit. destruct (find_exclude excludes include_).
  { intros [= <- <-]; split; [extends_by_computation | simpl; tauto]. }
  destruct (is_file O include_).
  - cbv zeta.
    assert (extends s (set_files (files s ++ [include_]) s)) as X0
      by extends_by_computation.
    destruct (Nat.eqb _ 1000).
    + intros E. apply upload_files_extends in E. destruct E as [X B].
      split; [exact (extends_trans _ _ _ X0 X) | exact B].
    + intros [= <- <-]. split; [exact X0 | simpl; tauto].
  - destruct (is_dir O include_).
    + destruct (iterdir O include_) as [children|[]]; intros [= <- <-];
        (split; [extends_by_computation
                | first [apply balanced_nearly | simpl; tauto]]).
    + intros [= <- <-]; split; [extends_by_computation | simpl; tauto].
Qed.

Lemma iteration_extends rest popped s r s' :
  iteration O excludes rest popped s = (r, s') ->
  extends s s' /\ (balanced s -> settled r s').
Proof.
  unfold iteration.
  assert (extends s (set_includes rest s)) as X0 by extends_by_computation.
  destruct (try_resolve O popped (set_includes rest s)) as [[q|e] s1] eqn:E1;
    apply try_resolve_extends in E1; destruct E1 as [X1 B1].
  - intros E2. apply visit_extends in E2. destruct E2 as [X2 B2].
    split; [exact (extends_trans _ _ _ (extends_trans _ _ _ X0 X1) X2)|].
    intros B. apply B2, B1. exact B.
  - intros [= <- <-].
    split; [exact (extends_trans _ _ _ X0 X1)|].
    intros B. apply balanced_nearly, B1. exact B.
Qed.

Lemma after_walk_extends s r s' :
  after_walk O s = (r, s') ->
  extends s s' /\ (balanced s -> settled r s').
Proof.
  unfold after_walk.
  destruct (Nat.ltb 0 (List.length (files s))).
  - destruct (upload_files O s) as [[[]|e] s1] eqn:E1;
      apply upload_files_extends in E1; destruct E1 as [X1 B1].
    + destruct (files_failed_to_backup s1 =? 0); intros [= <- <-];
        (split; [eapply extends_trans; [exact X1 | extends_by_computation]
                | exact B1]).
    + intros [= <- <-]. split; assumption.
  - destruct (files_failed_to_backup s =? 0); intros [= <- <-];
      (split; [extends_by_computation | simpl; tauto]).
Qed.

Lemma set_status_extends v s : extends s (set_status v s).
Proof. extends_by_computation. Qed.

Lemma step_extends s : extends s (step O excludes s).
Proof.
  unfold step. destruct (run_status s); try apply extends_refl.
  destruct (pop (includes s)) as [[rest popped]|].
  - destruct (iteration O excludes rest popped s) as [[[]|e] s1] eqn:E;
      apply iteration_extends in E; destruct E as [X _]; [exact X|].
    exact (extends_trans _ _ _ X (set_status_extends _ _)).
  - destruct (after_walk O s) as [[[]|e] s1] eqn:E;
      apply after_walk_extends in E; destruct E as [X _];
      exact (extends_trans _ _ _ X (set_status_extends _ _)).
Qed.

Lemma step_counters s : counters_inv s -> counters_inv (step O excludes s).
Proof.
  unfold step, counters_inv at 1. destruct (run_status s) eqn:Hst.
  - intros B. destruct (pop (includes s)) as [[rest popped]|].
    + destruct (iteration O excludes rest popped s) as [r s1] eqn:E.
      pose proof (iteration_queue O excludes rest popped s r s1 E) as [Hs1 _].
      apply iteration_extends in E. destruct E as [_ B1]. specialize (B1 B).
      destruct r as [[]|e]; unfold counters_inv; simpl.
      * rewrite Hs1, Hst. exact B1.
      * exact B1.
    + destruct (after_walk O s) as [r s1] eqn:E.
      apply after_walk_extends in E. destruct E as [_ B1]. specialize (B1 B).
      destruct r as [[]|e]; unfold counters_inv; simpl; exact B1.
  - intros B. unfold counters_inv. rewrite Hst. exact B.
  - intros B. unfold counters_inv. rewrite Hst. exact B.
Qed.

Lemma steps_extends fuel : forall s, extends s (steps O excludes fuel s).
Proof.
  induction fuel as [|n IH]; simpl; intros s; [apply extends_refl|].
  exact (extends_trans _ _ _ (step_extends s) (IH (step O excludes s))).
Qed.

Lemma steps_counters fuel : forall s,
  counters_inv s -> counters_inv (steps O excludes fuel s).
Proof.
  induction fuel as [|n IH]; simpl; intros s H; [exact H|].
  apply IH, step_counters, H.
Qed.

Lemma steps_add n m : forall s,
  steps O excludes (n + m) s = steps O excludes m (steps O excludes n s).
Proof. induction n as [|n IH]; simpl; intros s; [reflexivity | apply IH]. Qed.

End RunInvariants.

Lemma start_counters (c : config) : counters_inv (start c).
Proof. unfold counters_inv, balanced. simpl. lia. Qed.

(** X1: at every point of every run none of the counters is negative,
    and the number of files considered is the sum of the numbers backed
    up, already present and failed, or one more.  It is that sum as long
    as the run has not ended on an exception; an exception of lines
    133-144 leaves a record considered and not counted in a class. *)
Theorem counters_balanced (O : oracle) (c : config) (fuel : nat) :
  let s := run_backup O c fuel in
  nearly_balanced s /\ ((forall e, run_status s <> Raised e) -> balanced s).
Proof.
  intros s.
  assert (counters_inv s) as H by (apply steps_counters, start_counters).
  unfold counters_inv in H. destruct (run_status s) eqn:Hst.
  - split; [apply balanced_nearly; exact H | intros _; exact H].
  - split; [apply balanced_nearly; exact H | intros _; exact H].
  - split; [exact H | intros Hn; destruct (Hn e eq_refl)].
Qed.

(** The run of the scenario with a running total of 10^400 ends on
    [OverflowError] with one file considered and none in a class. *)
Example counters_after_overflow :
  let huge := String.append "1" (string_of_list_ascii (repeat "0"%char 400)) in
  let record := mkitem (Some "100%") (Some "a/f1.txt") (Some "FULL")
                       (Some "1kB/s") (Some huge) in
  let O := mkoracle Demo.demo_resolve Demo.demo_is_file Demo.demo_is_dir
                    Demo.demo_iterdir (fun _ _ => Ok [record]) Demo.int_decimal in
  let s := run_backup O (mkconfig ["/a/f1.txt"] []) 3 in
  run_status s = Raised OverflowError /\
  files_considered_for_backup s = 1 /\ files_backed_up_now s = 0 /\
  files_already_present s = 0 /\ files_failed_to_backup s = 0.
Proof. vm_compute. repeat split; reflexivity. Qed.

(** X2: running a run further never lowers a counter and never removes
    anything from the log, from the batches handed to the utility or from
    the paths emitted: each is the earlier one, extended. *)
Theorem run_only_extends (O : oracle) (c : config) (fuel more : nat) :
  extends (run_backup O c fuel) (run_backup O c (fuel + more)).
Proof.
  unfold run_backup. rewrite steps_add. apply steps_extends.
Qed.

(** ** The number of calls of the utility *)

Section Calls.

Variable O : oracle.
Variable excludes : list path.

Lemma after_walk_includes s r s' :
  after_walk O s = (r, s') -> includes s' = includes s.
Proof.
  unfold after_walk. destruct (Nat.ltb 0 (List.length (files s))).
  - destruct (upload_files O s) as [[[]|e] s1] eqn:E1;
      apply upload_files_frame in E1; destruct E1 as (Hi & _).
    + destruct (files_failed_to_backup s1 =? 0); intros [= <- <-]; exact Hi.
    + intros [= <- <-]; exact Hi.
  - destruct (files_failed_to_backup s =? 0); intros [= <- <-]; reflexivity.
Qed.

Lemma step_calls_inv s : calls_inv s -> calls_inv (step O excludes s).
Proof.
  unfold step, calls_inv at 1. destruct (run_status s) eqn:Hst.
  - intros [Hlen Hall]. destruct (pop (includes s)) as [[rest popped]|] eqn:Hpop.
    + destruct (iteration O excludes rest popped s) as [r s1] eqn:E.
      apply iteration_queue in E. rewrite Hst in E. destruct E as (Hs1 & E).
      destruct r as [[]|e]; unfold calls_inv; simpl; [|exact I].
      rewrite Hs1.
      destruct E as [[Hf Hu] | (q & [(Hn & Hf & Hu) | (Hn & Hf & Hu)])];
        rewrite Hf, Hu.
      * split; assumption.
      * split; [|assumption]. rewrite length_app in *. simpl in *. lia.
      * split; [simpl; lia|]. apply Forall_app. split; [assumption|].
        constructor; [exact Hn | constructor].
    + apply pop_None in Hpop.
      destruct (after_walk O s) as [r s1] eqn:E.
      pose proof (after_walk_includes s r s1 E) as Hinc.
      apply after_walk_queue in E. destruct E as (_ & E).
      destruct r as [[]|e]; unfold calls_inv; simpl; [|exact I].
      destruct E as [(_ & Hf & Hu) | (Hne & Hf & Hu)].
      * split; [exact Hf|]. split; [congruence|].
        exists (uploaded s), []. rewrite app_nil_r.
        repeat split; try assumption; [simpl; lia | constructor].
      * split; [exact Hf|]. split; [congruence|].
        exists (uploaded s), [files s].
        repeat split; try assumption; [simpl; lia|].
        constructor; [|constructor].
        destruct (files s); [contradiction | simpl in *; lia].
  - intros H. unfold calls_inv. rewrite Hst. exact H.
  - intros H. unfold calls_inv. rewrite Hst. exact H.
Qed.

Lemma steps_calls_inv fuel : forall s,
  calls_inv s -> calls_inv (steps O excludes fuel s).
Proof.
  induction fuel as [|n IH]; simpl; intros s H; [exact H|].
  apply IH, step_calls_inv, H.
Qed.

Lemma length_concat_full (full : list (list path)) :
  Forall (fun b => List.length b = 1000%nat) full ->
  List.length (List.concat full) = (1000 * List.length full)%nat.
Proof.
  induction 1 as [|b l Hb _ IH]; [reflexivity|].
  simpl List.concat. rewrite length_app, IH, Hb. simpl List.length. lia.
Qed.

End Calls.

(** X3: while a run walks, the number of paths emitted so far is 1000
    times the number of calls made plus the number pending, which is
    below 1000.  When a run has returned, nothing is pending, the work
    list is empty, every emitted path has been handed over, and the
    number of calls is the number of emitted paths divided by 1000,
    rounded up. *)
Theorem calls_made (O : oracle) (c : config) (fuel : nat) :
  let s := run_backup O c fuel in
  (run_status s = Walking ->
   List.length (emitted s) =
     (1000 * List.length (uploaded s) + List.length (files s))%nat /\
   (List.length (files s) < 1000)%nat) /\
  (run_status s = Returned ->
   files s = [] /\ includes s = [] /\
   emitted s = List.concat (uploaded s) /\
   List.length (uploaded s) = ((List.length (emitted s) + 999) / 1000)%nat).
Proof.
  intros s.
  assert (calls_inv s) as Hinv.
  { apply steps_calls_inv. unfold calls_inv. simpl. split; [lia | constructor]. }
  unfold calls_inv in Hinv. split; intros Hst; rewrite Hst in Hinv.
  - destruct Hinv as [Hlen Hall]. split; [|exact Hlen].
    unfold emitted. rewrite length_app, length_concat_full by exact Hall.
    reflexivity.
  - destruct Hinv as (Hf & Hi & full & last & Hu & Hfull & Hlast & Hsmall).
    split; [exact Hf|]. split; [exact Hi|].
    assert (emitted s = List.concat (uploaded s)) as He
      by (unfold emitted; rewrite Hf; apply app_nil_r).
    split; [exact He|]. rewrite He, Hu, concat_app, !length_app.
    rewrite length_concat_full by exact Hfull.
    destruct last as [|b [|b' l]]; cbn [List.length] in Hlast; try lia.
    + change (List.length (List.concat (@nil (list path)))) with 0%nat.
      change (List.length (@nil (list path))) with 0%nat.
      apply Nat.div_unique with (r := 999%nat); lia.
    + inversion Hsmall as [|x y Hb _]; subst.
      change (List.concat [b]) with (b ++ []). rewrite app_nil_r.
      change (List.length [b]) with 1%nat.
      apply Nat.div_unique with (r := (List.length b - 1)%nat); lia.
Qed.

Lemma calls_made_witness :
  let s := run_backup (Demo.big 1001) (mkconfig ["/big"] []) 1003 in
  run_status s = Returned /\
  List.length (uploaded s) = ((List.length (emitted s) + 999) / 1000)%nat.
Proof.
  intros s.
  assert (run_status s = Returned) as H by (vm_compute; reflexivity).
  split; [exact H|].
  exact (proj2 (proj2 (proj2
           (proj2 (calls_made (Demo.big 1001) (mkconfig ["/big"] []) 1003) H)))).
Defined.

(** ** What the walk reaches *)

Section Reach.

Variable O : oracle.
Variable excludes : list path.

Lemma reach_trans c0 c1 c2 :
  reach O excludes c0 c1 -> reach O excludes c1 c2 -> reach O excludes c0 c2.
Proof.
  intros H01 H12. induction H12 as [|c q children c' _ IH Hr Hx Hf Hd Hi Hc].
  - exact H01.
  - eapply reach_entry; eassumption.
Qed.

(** A candidate reached from [c1] is [c1] or is reached from an entry of
    the directory [c1] resolves to. *)
Lemma reach_head c1 c :
  reach O excludes c1 c ->
  c = c1 \/
  exists q children c',
    resolve O c1 = Ok q /\ find_exclude excludes q = None /\
    is_file O q = false /\ is_dir O q = true /\
    iterdir O q = Ok children /\ In c' children /\ reach O excludes c' c.
Proof.
  induction 1 as [|c q children c' H IH Hr Hx Hf Hd Hi Hc]; [left; reflexivity|].
  right. destruct IH as [-> | (q1 & ch1 & c1' & Hr1 & Hx1 & Hf1 & Hd1 & Hi1 & Hc1 & H1)].
  - exists q, children, c'. repeat split; try assumption. apply reach_root.
  - exists q1, ch1, c1'. repeat split; try assumption.
    eapply reach_entry; eassumption.
Qed.

Lemma try_resolve_cases popped s r s' :
  try_resolve O popped s = (r, s') ->
  includes s' = includes s /\ emitted s' = emitted s /\
  run_status s' = run_status s /\
  ((exists q, resolve O popped = Ok q /\ r = Ok q /\ include s' = Some q) \/
   (resolve O popped = Raise FileNotFoundError /\
    exists stale, include s = Some stale /\ include s' = Some stale /\ r = Ok stale) \/
   (exists e, r = Raise e /\ include s' = include s /\
              forall q, resolve O popped <> Ok q)).
Proof.
  unfold try_resolve. destruct (resolve O popped) as [q|[]] eqn:E;
    try (intros [= <- <-]; repeat split; try reflexivity;
         right; right; eexists; repeat split;
         first [reflexivity | assumption | intros; discriminate]).
  - intros [= <- <-]. repeat split; try reflexivity.
    left. exists q. repeat split.
  - destruct (include s) as [stale|] eqn:Hi; intros [= <- <-].
    + repeat split; try reflexivity. right; left. split; [reflexivity|].
      exists stale. simpl. repeat split. exact Hi.
    + repeat split; try reflexivity. right; right. eexists.
      repeat split; first [reflexivity | assumption | intros; discriminate].
Qed.

Lemma visit_cases q s r s' :
  visit O excludes q s = (r, s') ->
  include s' = include s /\ run_status s' = run_status s /\
  ((includes s' = includes s /\ emitted s' = emitted s /\
    (find_exclude excludes q <> None \/
     (is_file O q = false /\
      (is_dir O q = false \/ exists e, iterdir O q = Raise e)))) \/
   (includes s' = includes s /\ emitted s' = emitted s ++ [q] /\
    find_exclude excludes q = None /\ is_file O q = true) \/
   (exists children,
      includes s' = includes s ++ children /\ emitted s' = emitted s /\
      find_exclude excludes q = None /\ is_file O q = false /\
      is_dir O q = true /\ iterdir O q = Ok children /\ r = Ok tt)).
Proof.
  unfold visit. destruct (find_exclude excludes q) as [e|] eqn:Hx.
  { intros [= <- <-]. repeat split. left. repeat split. left; discriminate. }
  destruct (is_file O q) eqn:Hf.
  - cbv zeta. destruct (Nat.eqb _ 1000).
    + intros E. pose proof (upload_files_emitted O _ _ _ E) as He.
      apply upload_files_frame in E. destruct E as (Hi & Hinc & _ & _ & Hs).
      simpl in *. repeat split; try assumption. right; left.
      repeat split; try assumption. rewrite He. unfold emitted. simpl.
      apply app_assoc.
    + intros [= <- <-]. repeat split. right; left. repeat split.
      unfold emitted. simpl. apply app_assoc.
  - destruct (is_dir O q) eqn:Hd.
    + destruct (iterdir O q) as [children|e] eqn:Hi.
      * intros [= <- <-]. repeat split. right; right. exists children.
        repeat split.
      * destruct e; intros [= <- <-]; repeat split; left; repeat split;
          right; (split; [reflexivity | right; eexists; reflexivity]).
    + intros [= <- <-]. repeat split. left. repeat split.
      right. split; [reflexivity | left; reflexivity].
Qed.

Variable roots : list path.

Lemma sound_inv_status v s :
  sound_inv O excludes roots s -> sound_inv O excludes roots (set_status v s).
Proof. intros H. exact H. Qed.

Lemma iteration_sound rest popped s r s' :
  sound_inv O excludes roots s ->
  pop (includes s) = Some (rest, popped) ->
  iteration O excludes rest popped s = (r, s') ->
  sound_inv O excludes roots s'.
Proof.
  intros (Hinc & Hcur & Hem) Hpop. apply pop_Some in Hpop.
  assert (forall c, In c rest -> exists c0, In c0 roots /\ reach O excludes c0 c)
    as Hrest.
  { intros c Hc. apply Hinc. rewrite Hpop. apply in_or_app. left; exact Hc. }
  destruct (Hinc popped) as (p0 & Hp0 & Hreach0).
  { rewrite Hpop. apply in_or_app. right. left; reflexivity. }
  unfold iteration.
  destruct (try_resolve O popped (set_includes rest s)) as [r1 s1] eqn:E1.
  apply try_resolve_cases in E1. simpl in E1.
  destruct E1 as (Hi1 & He1 & _ & Hcase).
  change (emitted (set_includes rest s)) with (emitted s) in He1.
  assert (forall q1, r1 = Ok q1 -> include s1 = Some q1 /\
            exists c0 c, In c0 roots /\ reach O excludes c0 c /\
                         resolve O c = Ok q1) as Hvisit.
  { intros q1 ->.
    destruct Hcase as [(q & Hr & [= <-] & Hi) |
                       [(_ & stale & Hs & Hi & [= <-]) | (e & [=] & _)]].
    - split; [exact Hi|]. exists p0, popped. repeat split; assumption.
    - split; [exact Hi|]. apply Hcur. exact Hs. }
  assert (forall q, include s1 = Some q ->
            exists c0 c, In c0 roots /\ reach O excludes c0 c /\
                         resolve O c = Ok q) as Hcur1.
  { intros q Hq.
    destruct Hcase as [(q' & Hr & _ & Hi) |
                       [(_ & stale & Hs & Hi & _) | (e & _ & Hi & _)]].
    - rewrite Hi in Hq. injection Hq as <-.
      exists p0, popped. repeat split; assumption.
    - rewrite Hi in Hq. injection Hq as <-. apply Hcur. exact Hs.
    - rewrite Hi in Hq. apply Hcur. exact Hq. }
  destruct r1 as [q1|e].
  - destruct (Hvisit q1 eq_refl) as (_ & c0 & c & Hc0 & Hreach & Hres).
    intros E2. apply visit_cases in E2.
    destruct E2 as (Hi2 & _ & [(Hinc2 & He2 & _) |
                      [(Hinc2 & He2 & Hx & Hf) |
                       (children & Hinc2 & He2 & Hx & Hf & Hd & Hit & _)]]).
    + split; [rewrite Hinc2, Hi1; exact Hrest|].
      split; [rewrite Hi2; exact Hcur1|]. rewrite He2, He1. exact Hem.
    + split; [rewrite Hinc2, Hi1; exact Hrest|].
      split; [rewrite Hi2; exact Hcur1|]. rewrite He2, He1.
      apply Forall_app. split; [exact Hem|]. constructor; [|constructor].
      exists c0, c. repeat split; assumption.
    + split; [|split; [rewrite Hi2; exact Hcur1 | rewrite He2, He1; exact Hem]].
      intros c' Hc'. rewrite Hinc2, Hi1 in Hc'. apply in_app_or in Hc'.
      destruct Hc' as [Hc' | Hc']; [apply Hrest; exact Hc'|].
      exists c0. split; [exact Hc0|]. eapply reach_entry; eassumption.
  - intros [= <- <-].
    split; [rewrite Hi1; exact Hrest|]. split; [exact Hcur1|].
    rewrite He1. exact Hem.
Qed.

Lemma step_sound s :
  sound_inv O excludes roots s -> sound_inv O excludes roots (step O excludes s).
Proof.
  intros H. unfold step. destruct (run_status s); try exact H.
  destruct (pop (includes s)) as [[rest popped]|] eqn:Hpop.
  - destruct (iteration O excludes rest popped s) as [r s1] eqn:E.
    pose proof (iteration_sound rest popped s r s1 H Hpop E) as H1.
    destruct r; [exact H1 | apply sound_inv_status; exact H1].
  - destruct (after_walk O s) as [r s1] eqn:E.
    pose proof (after_walk_includes O s r s1 E) as Hinc.
    pose proof (after_walk_include O s r s1 E) as Hcur.
    pose proof (after_walk_emitted O s r s1 E) as Hem.
    assert (sound_inv O excludes roots s1) as H1.
    { destruct H as (A & B & C). unfold sound_inv.
      rewrite Hinc, Hcur, Hem. repeat split; assumption. }
    destruct r; apply sound_inv_status; exact H1.
Qed.

Lemma steps_sound fuel : forall s,
  sound_inv O excludes roots s ->
  sound_inv O excludes roots (steps O excludes fuel s).
Proof.
  induction fuel as [|n IH]; simpl; intros s H; [exact H|].
  apply IH, step_sound, H.
Qed.

Lemma step_complete s :
  complete_inv O excludes roots s ->
  complete_inv O excludes roots (step O excludes s).
Proof.
  intros Hinv Hnr c0 c q Hc0 Hreach Hres Hx Hf.
  revert Hnr. unfold step. destruct (run_status s) eqn:Hst;
    try (intros Hnr; eapply Hinv; eassumption).
  assert (forall e, run_status s <> Raised e) as Hs
    by (intros e; rewrite Hst; discriminate).
  specialize (Hinv Hs c0 c q Hc0 Hreach Hres Hx Hf).
  destruct (pop (includes s)) as [[rest popped]|] eqn:Hpop.
  - apply pop_Some in Hpop.
    destruct (iteration O excludes rest popped s) as [r s1] eqn:E.
    destruct r as [[]|e];
      [|intros Hnr; exfalso; apply (Hnr e); reflexivity].
    intros _. revert E. unfold iteration.
    destruct (try_resolve O popped (set_includes rest s)) as [r1 s1'] eqn:E1.
    apply try_resolve_cases in E1. simpl in E1.
    destruct E1 as (Hi1 & He1 & _ & Hcase).
    change (emitted (set_includes rest s)) with (emitted s) in He1.
    destruct r1 as [q1|e]; [|discriminate].
    intros E2. apply visit_cases in E2. destruct E2 as (_ & _ & Hv).
    assert (forall x, In x (emitted s) -> In x (emitted s1)) as Hkeep.
    { intros x Hin.
      destruct Hv as [(_ & He2 & _) | [(_ & He2 & _) | (ch & _ & He2 & _)]];
        rewrite He2, He1; try exact Hin.
      apply in_or_app. left; exact Hin. }
    assert (forall x, In x rest -> In x (includes s1)) as Hkeep'.
    { intros x Hin.
      destruct Hv as [(Hi2 & _) | [(Hi2 & _) | (ch & Hi2 & _)]];
        rewrite Hi2, Hi1; try exact Hin.
      apply in_or_app. left; exact Hin. }
    destruct Hinv as [Hin | (c1 & Hc1 & Hr1)]; [left; apply Hkeep; exact Hin|].
    rewrite Hpop in Hc1. apply in_app_or in Hc1.
    destruct Hc1 as [Hc1 | [<- | []]].
    { right. exists c1. split; [apply Hkeep'; exact Hc1 | exact Hr1]. }
    apply reach_head in Hr1.
    destruct Hr1 as [-> | (qd & children & c' & Hrd & Hxd & Hfd & Hdd & Hid & Hc' & Hr')].
    + assert (q1 = q) as ->.
      { destruct Hcase as [(q' & Hr & [= <-] & _) |
                           [(Hr & _) | (e & [=] & _)]]; congruence. }
      left.
      destruct Hv as [(_ & _ & [Hn | (Hn & _)]) |
                      [(_ & He2 & _) | (ch & _ & _ & _ & Hn & _)]];
        try congruence.
      rewrite He2, He1. apply in_or_app. right. left; reflexivity.
    + assert (q1 = qd) as ->.
      { destruct Hcase as [(q' & Hr & [= <-] & _) |
                           [(Hr & _) | (e & [=] & _)]]; congruence. }
      right. exists c'. split; [|exact Hr'].
      destruct Hv as [(_ & _ & [Hn | (_ & [Hn | (e & Hn)])]) |
                      [(_ & _ & _ & Hn) | (ch & Hi2 & _ & _ & _ & _ & Hit & _)]];
        try congruence.
      rewrite Hi2, Hi1. apply in_or_app. right.
      rewrite Hid in Hit. injection Hit as <-. exact Hc'.
  - apply pop_None in Hpop. rewrite Hpop in Hinv.
    destruct Hinv as [Hin | (c1 & [] & _)].
    destruct (after_walk O s) as [r s1] eqn:E.
    apply after_walk_emitted in E. intros _. left.
    destruct r; unfold emitted in *; simpl; rewrite E; exact Hin.
Qed.

Lemma steps_complete fuel : forall s,
  complete_inv O excludes roots s ->
  complete_inv O excludes roots (steps O excludes fuel s).
Proof.
  induction fuel as [|n IH]; simpl; intros s H; [exact H|].
  apply IH, step_complete, H.
Qed.

End Reach.

(** X4: every path a run has emitted is a regular file that no exclude
    matches and that is the resolution of a candidate reached from a
    configured include through directories no exclude matches. *)
Theorem emitted_are_targets (O : oracle) (c : config) (fuel : nat) (q : path) :
  In q (emitted (run_backup O c fuel)) ->
  target O (map Path (config_excludes c)) (map Path (config_includes c)) q.
Proof.
  assert (sound_inv O (map Path (config_excludes c)) (map Path (config_includes c))
                    (run_backup O c fuel)) as (_ & _ & H).
  { apply steps_sound. unfold sound_inv. simpl. repeat split.
    - intros x Hx. exists x. split; [exact Hx | apply reach_root].
    - discriminate.
    - constructor. }
  rewrite Forall_forall in H. apply H.
Qed.

Lemma emitted_are_targets_witness :
  In (Path "/a/f1.txt")
     (emitted (run_backup Demo.demo (mkconfig ["/a"] ["/a/f2.txt"]) 5)) /\
  target Demo.demo [Path "/a/f2.txt"] [Path "/a"] (Path "/a/f1.txt").
Proof.
  assert (In (Path "/a/f1.txt")
     (emitted (run_backup Demo.demo (mkconfig ["/a"] ["/a/f2.txt"]) 5))) as H
    by (vm_compute; left; reflexivity).
  split; [exact H|].
  exact (emitted_are_targets Demo.demo (mkconfig ["/a"] ["/a/f2.txt"]) 5
           (Path "/a/f1.txt") H).
Defined.

(** X5: when a run has returned, every regular file that no exclude
    matches and that is the resolution of a candidate reached from a
    configured include has been emitted. *)
Theorem targets_are_emitted (O : oracle) (c : config) (fuel : nat) (q : path) :
  run_status (run_backup O c fuel) = Returned ->
  target O (map Path (config_excludes c)) (map Path (config_includes c)) q ->
  In q (emitted (run_backup O c fuel)).
Proof.
  intros Hst (c0 & c1 & Hc0 & Hreach & Hres & Hx & Hf).
  assert (complete_inv O (map Path (config_excludes c))
            (map Path (config_includes c)) (run_backup O c fuel)) as H.
  { apply steps_complete. intros _ r0 r1 q' Hr0 Hr _ _ _.
    right. exists r0. split; [exact Hr0 | exact Hr]. }
  destruct (H (fun e => ltac:(rewrite Hst; discriminate)) c0 c1 q Hc0 Hreach Hres Hx Hf)
    as [Hin | (c2 & Hc2 & _)]; [exact Hin|].
  exfalso.
  assert (calls_inv (run_backup O c fuel)) as Hcalls.
  { apply steps_calls_inv. unfold calls_inv. simpl. split; [lia | constructor]. }
  unfold calls_inv in Hcalls. rewrite Hst in Hcalls.
  destruct Hcalls as (_ & Hi & _). rewrite Hi in Hc2. exact Hc2.
Qed.

Lemma targets_are_emitted_witness :
  run_status (run_backup Demo.demo (mkconfig ["/a"] ["/a/f2.txt"]) 5) = Returned /\
  target Demo.demo (map Path ["/a/f2.txt"]) (map Path ["/a"]) (Path "/a/f1.txt") /\
  In (Path "/a/f1.txt")
     (emitted (run_backup Demo.demo (mkconfig ["/a"] ["/a/f2.txt"]) 5)).
Proof.
  assert (run_status (run_backup Demo.demo (mkconfig ["/a"] ["/a/f2.txt"]) 5)
          = Returned) as H1 by (vm_compute; reflexivity).
  assert (target Demo.demo (map Path ["/a/f2.txt"]) (map Path ["/a"])
                 (Path "/a/f1.txt")) as H2.
  { exists (Path "/a"), (Path "/a/f1.txt").
    split; [left; reflexivity|]. split; [|repeat split].
    apply (reach_entry Demo.demo _ _ (Path "/a") (Path "/a")
             [Path "/a/f1.txt"; Path "/a/f2.txt"]);
      try reflexivity; [apply reach_root | left; reflexivity]. }
  split; [exact H1|]. split; [exact H2|].
  exact (targets_are_emitted Demo.demo (mkconfig ["/a"] ["/a/f2.txt"]) 5
           (Path "/a/f1.txt") H1 H2).
Defined.

(** ** Whether the walk ends *)

Section Termination.

Variable O : oracle.
Variable excludes : list path.
Variable size : path -> nat.
Hypothesis Hresolve : forall c, resolve O c <> Raise FileNotFoundError.
Hypothesis Hsize : bounds_walk O excludes size.

Lemma work_app (a b : list path) :
  work size (a ++ b) = (work size a + work size b)%nat.
Proof. unfold work. rewrite map_app. apply list_sum_app. Qed.

Lemma iteration_work rest popped s s' :
  includes s = rest ++ [popped] ->
  iteration O excludes rest popped s = (Ok tt, s') ->
  (work size (includes s') < work size (includes s))%nat.
Proof.
  intros Hinc. unfold iteration.
  destruct (try_resolve O popped (set_includes rest s)) as [r1 s1] eqn:E1.
  apply try_resolve_cases in E1. simpl in E1.
  destruct E1 as (Hi1 & _ & _ & Hcase).
  destruct r1 as [q1|e]; [|discriminate].
  assert (resolve O popped = Ok q1) as Hres.
  { destruct Hcase as [(q & Hr & [= <-] & _) | [(Hr & _) | (e & [=] & _)]];
      [exact Hr | destruct (Hresolve popped Hr)]. }
  intros E2. apply visit_cases in E2.
  rewrite Hinc, work_app. unfold work at 3. simpl.
  destruct E2 as (_ & _ & [(Hi2 & _) | [(Hi2 & _) |
                   (children & Hi2 & _ & Hx & Hf & Hd & Hit & _)]]);
    rewrite Hi2, Hi1; try lia.
  rewrite work_app. pose proof (Hsize popped q1 children Hres Hx Hf Hd Hit). lia.
Qed.

Lemma step_not_walking s :
  run_status s = Walking -> pop (includes s) = None ->
  run_status (step O excludes s) <> Walking.
Proof.
  intros Hst Hpop. unfold step. rewrite Hst, Hpop.
  destruct (after_walk O s) as [[[]|e] s1]; simpl; discriminate.
Qed.

Lemma steps_terminate fuel : forall s,
  (work size (includes s) < fuel)%nat ->
  run_status (steps O excludes fuel s) <> Walking.
Proof.
  induction fuel as [|n IH]; intros s Hw; [lia|]. simpl.
  destruct (run_status s) eqn:Hst.
  - destruct (pop (includes s)) as [[rest popped]|] eqn:Hpop.
    + pose proof (pop_Some _ _ _ Hpop) as Hinc.
      destruct (iteration O excludes rest popped s) as [[[]|e] s1] eqn:E.
      * pose proof (iteration_work rest popped s s1 Hinc E) as Hlt.
        assert (step O excludes s = s1) as ->
          by (unfold step; rewrite Hst, Hpop, E; reflexivity).
        apply IH. lia.
      * assert (step O excludes s = set_status (Raised e) s1) as ->
          by (unfold step; rewrite Hst, Hpop, E; reflexivity).
        rewrite steps_ended; simpl; discriminate.
    + pose proof (step_not_walking s Hst Hpop) as H.
      rewrite steps_ended; exact H.
  - assert (step O excludes s = s) as ->
      by (unfold step; rewrite Hst; reflexivity).
    rewrite steps_ended; rewrite Hst; discriminate.
  - assert (step O excludes s = s) as ->
      by (unfold step; rewrite Hst; reflexivity).
    rewrite steps_ended; rewrite Hst; discriminate.
Qed.

End Termination.

(** X6: where no resolution fails with [FileNotFoundError] and a
    function [size] bounds what lies below every candidate (the entries
    of a directory the walk expands weigh, one more each, at most what
    the candidate does), the run ends, by a return or an exception,
    within one step more than the weight of the configured includes. *)
Theorem walk_terminates (O : oracle) (c : config) (size : path -> nat)
  (fuel : nat) :
  (forall p, resolve O p <> Raise FileNotFoundError) ->
  bounds_walk O (map Path (config_excludes c)) size ->
  (work size (map Path (config_includes c)) < fuel)%nat ->
  run_status (run_backup O c fuel) <> Walking.
Proof.
  intros Hres Hsize Hfuel. unfold run_backup.
  apply (steps_terminate O _ size Hres Hsize). exact Hfuel.
Qed.

Lemma big_bounds_walk : bounds_walk (Demo.big 3) [] (Fixtures.big_size 3).
Proof.
  intros c q children Hres _ _ _ Hit. simpl in Hres, Hit.
  injection Hres as <-. unfold Fixtures.big_size.
  destruct (path_eqb c (Path "/big")); [|discriminate].
  injection Hit as <-. vm_compute. lia.
Defined.

Lemma walk_terminates_witness :
  (forall p, resolve (Demo.big 3) p <> Raise FileNotFoundError) /\
  bounds_walk (Demo.big 3) (map Path []) (Fixtures.big_size 3) /\
  (work (Fixtures.big_size 3) (map Path ["/big"]) < 5)%nat /\
  run_status (run_backup (Demo.big 3) (mkconfig ["/big"] []) 5) <> Walking.
Proof.
  assert (forall p, resolve (Demo.big 3) p <> Raise FileNotFoundError) as H1
    by (intros p; discriminate).
  assert (work (Fixtures.big_size 3) (map Path ["/big"]) < 5)%nat as H3
    by (vm_compute; lia).
  split; [exact H1|]. split; [exact big_bounds_walk|]. split; [exact H3|].
  exact (walk_terminates (Demo.big 3) (mkconfig ["/big"] []) (Fixtures.big_size 3)
           5 H1 big_bounds_walk H3).
Defined.

(** ** A walk that does not end *)

Section Trap.

Variable O : oracle.
Variable excludes : list path.
Variables q b : path.
Variable others : list path.
Hypothesis Hx : find_exclude excludes q = None.
Hypothesis Hf : is_file O q = false.
Hypothesis Hd : is_dir O q = true.
Hypothesis Hit : iterdir O q = Ok (others ++ [b]).
Hypothesis Hb : resolve O b = Raise FileNotFoundError.

Lemma visit_directory s :
  visit O excludes q s = (Ok tt, set_includes (includes s ++ others ++ [b]) s).
Proof. unfold visit. rewrite Hx, Hf, Hd, Hit. reflexivity. Qed.

Lemma step_expands s rest d :
  run_status s = Walking -> includes s = rest ++ [d] -> resolve O d = Ok q ->
  let s' := step O excludes s in
  run_status s' = Walking /\ include s' = Some q /\
  includes s' = (rest ++ others) ++ [b].
Proof.
  intros Hst Hinc Hres. unfold step. rewrite Hst, Hinc, pop_app.
  unfold iteration, try_resolve. rewrite Hres, visit_directory. simpl.
  rewrite Hst. repeat split. apply app_assoc.
Qed.

Lemma step_trapped s rest :
  run_status s = Walking -> include s = Some q -> includes s = rest ++ [b] ->
  let s' := step O excludes s in
  run_status s' = Walking /\ include s' = Some q /\
  includes s' = (rest ++ others) ++ [b].
Proof.
  intros Hst Hcur Hinc. unfold step. rewrite Hst, Hinc, pop_app.
  unfold iteration, try_resolve. rewrite Hb. simpl. rewrite Hcur.
  rewrite visit_directory. simpl. rewrite Hst, Hcur. repeat split.
  apply app_assoc.
Qed.

Lemma steps_trapped fuel : forall s rest,
  run_status s = Walking -> include s = Some q -> includes s = rest ++ [b] ->
  run_status (steps O excludes fuel s) = Walking.
Proof.
  induction fuel as [|n IH]; simpl; intros s rest Hst Hcur Hinc; [exact Hst|].
  destruct (step_trapped s rest Hst Hcur Hinc) as (H1 & H2 & H3).
  exact (IH _ _ H1 H2 H3).
Qed.

End Trap.

(** X7: when the candidate on top of the work list resolves to a
    directory that no exclude matches and whose last listed entry fails
    to resolve with [FileNotFoundError], the walk never ends: the handler
    falls through with [include] still bound to the directory, which is
    listed again, so that the failing entry is on top again; no number of
    steps ends the run. *)
Theorem walk_never_ends (O : oracle) (excludes : list path) (s : state)
  (rest : list path) (d q b : path) (others : list path) (fuel : nat) :
  run_status s = Walking ->
  includes s = rest ++ [d] ->
  resolve O d = Ok q ->
  find_exclude excludes q = None ->
  is_file O q = false ->
  is_dir O q = true ->
  iterdir O q = Ok (others ++ [b]) ->
  resolve O b = Raise FileNotFoundError ->
  run_status (steps O excludes fuel s) = Walking.
Proof.
  intros Hst Hinc Hres Hx Hf Hd Hit Hb.
  destruct fuel as [|n]; [exact Hst|]. simpl.
  destruct (step_expands O excludes q b others Hx Hf Hd Hit s rest d Hst Hinc Hres)
    as (H1 & H2 & H3).
  exact (steps_trapped O excludes q b others Hx Hf Hd Hit Hb n _ _ H1 H2 H3).
Qed.

Lemma walk_never_ends_witness :
  let s := start (mkconfig ["/d"] []) in
  run_status s = Walking /\ includes s = [] ++ [Path "/d"] /\
  run_status (steps Fixtures.trap [] 1000 s) = Walking.
Proof.
  intros s. split; [reflexivity|]. split; [reflexivity|].
  exact (walk_never_ends Fixtures.trap [] s [] (Path "/d") (Path "/d")
           (Path "/d/b") [] 1000
           eq_refl eq_refl eq_refl eq_refl eq_refl eq_refl eq_refl eq_refl).
Defined.

(** ** Successive runs *)

(** X8: whatever the successive readings of the clock and whatever the
    file [lastrun] holds at first, two successive runs started by the
    scheduling loop are at least the interval apart, and the first one
    is at least the interval after the time the file held.  This holds
    whether the runs return or raise, since the file is rewritten before
    a run begins. *)
Theorem runs_spaced (clock : list datetime) (interval : timedelta)
  (lastrunfile : option datetime) :
  spaced interval lastrunfile (main_loop clock interval lastrunfile).
Proof.
  revert lastrunfile. induction clock as [|now later IH]; intros file; [exact I|].
  simpl. unfold schedule. destruct file as [t|].
  - destruct (Z.gtb_spec (t + interval) now) as [Hgt|Hle].
    + apply IH.
    + simpl. split; [exact Hle | apply IH].
  - simpl. split; [exact I | apply IH].
Qed.

(** A second reading taken before the interval has elapsed starts no
    run; one taken when it has elapsed does. *)
Example main_loop_example :
  main_loop [1000; 1199; 1200; 1201; 1499; 1500] 300 (Some 900) =
  [1200; 1500].
Proof. reflexivity. Qed.

(** ** The logged quantity *)

Lemma exceeds_1024_true (x : Q) : exceeds_1024 x = true <-> Qlt (1024 # 1) x.
Proof.
  unfold exceeds_1024. rewrite negb_true_iff.
  destruct (Qle_bool x (1024 # 1)) eqn:E.
  - apply Qle_bool_iff in E. split; [discriminate|].
    intros H. exfalso. apply (Qlt_not_le _ _ H E).
  - split; [intros _ | reflexivity]. apply Qnot_le_lt. intros H.
    apply Qle_bool_iff in H. congruence.
Qed.

Lemma exceeds_1024_false (x : Q) : exceeds_1024 x = false <-> Qle x (1024 # 1).
Proof.
  unfold exceeds_1024. rewrite negb_false_iff. apply Qle_bool_iff.
Qed.

Lemma scale_exact_denotes (transfer_size : Z) :
  let size := fst (scale_exact transfer_size) in
  let unit := snd (scale_exact transfer_size) in
  In unit ["B"; "kB"; "MB"; "GB"] /\
  Qeq (Qmult size (unit_factor unit)) (inject_Z transfer_size) /\
  (unit <> "GB" -> Qle size (1024 # 1)) /\
  (unit <> "B" -> Qlt (1 # 1) size).
Proof.
  unfold scale_exact. cbn [scale_exact_while].
  destruct (exceeds_1024 (inject_Z transfer_size)) eqn:E1.
  - destruct (exceeds_1024 (Qdiv (inject_Z transfer_size) (1024 # 1))) eqn:E2.
    + destruct (exceeds_1024
                  (Qdiv (Qdiv (inject_Z transfer_size) (1024 # 1)) (1024 # 1)))
        eqn:E3; cbn [fst snd].
      * apply exceeds_1024_true in E3.
        split; [simpl; tauto|]. split; [|split; [congruence|]].
        -- unfold Qeq, Qmult, Qdiv, Qinv, inject_Z, unit_factor. simpl. lia.
        -- intros _. revert E3.
           unfold Qlt, Qmult, Qdiv, Qinv, inject_Z. simpl. lia.
      * apply exceeds_1024_false in E3. apply exceeds_1024_true in E2.
        split; [simpl; tauto|]. split; [|split].
        -- unfold Qeq, Qmult, Qdiv, Qinv, inject_Z, unit_factor. simpl. lia.
        -- intros _. exact E3.
        -- intros _. revert E2.
           unfold Qlt, Qmult, Qdiv, Qinv, inject_Z. simpl. lia.
    + cbn [fst snd].
      apply exceeds_1024_false in E2. apply exceeds_1024_true in E1.
      split; [simpl; tauto|]. split; [|split].
      * unfold Qeq, Qmult, Qdiv, Qinv, inject_Z, unit_factor. simpl. lia.
      * intros _. exact E2.
      * intros _. revert E1.
        unfold Qlt, Qmult, Qdiv, Qinv, inject_Z. simpl. lia.
  - cbn [fst snd].
    apply exceeds_1024_false in E1.
    split; [simpl; tauto|]. split; [|split].
    + unfold Qeq, Qmult, inject_Z, unit_factor. simpl. lia.
    + intros _. exact E1.
    + intros H. congruence.
Qed.

(** X9: for a transfer size of a magnitude below 2^53, where the float
    arithmetic of the code is exact, the value and unit logged denote the
    size: a line is logged, the value times the number of bytes of the
    unit is the transfer size, the unit is one of B, kB, MB and GB, and
    the value is at most 1024 unless the unit is GB and above 1 unless
    the unit is B. *)
Theorem scale_denotes (transfer_size : Z) :
  Z.abs transfer_size < 2 ^ 53 ->
  exists shown unit,
    logged (scale transfer_size) = Ok (shown, unit) /\
    In unit ["B"; "kB"; "MB"; "GB"] /\
    Qeq (Qmult shown (unit_factor unit)) (inject_Z transfer_size) /\
    (unit <> "GB" -> Qle shown (1024 # 1)) /\
    (unit <> "B" -> Qlt (1 # 1) shown).
Proof.
  intros H. rewrite scale_is_scale_spec, (logged_exact transfer_size H).
  pose proof (scale_exact_denotes transfer_size) as D. cbv zeta in D.
  destruct (scale_exact transfer_size) as [shown unit]. cbn [fst snd] in D.
  exists shown, unit. split; [reflexivity | exact D].
Qed.

Lemma scale_denotes_witness :
  Z.abs 3145728 < 2 ^ 53 /\
  exists shown unit,
    logged (scale 3145728) = Ok (shown, unit) /\
    Qeq (Qmult shown (unit_factor unit)) (inject_Z 3145728).
Proof.
  assert (Z.abs 3145728 < 2 ^ 53) as H by (vm_compute; reflexivity).
  split; [exact H|].
  destruct (scale_denotes 3145728 H) as (shown & unit & E & _ & D & _).
  exists shown, unit. split; [exact E | exact D].
Defined.

(** * The adapter of the utility *)

Section Strings.

Lemma append_assoc (a b c : string) :
  String.append (String.append a b) c = String.append a (String.append b c).
Proof. induction a as [|x a IH]; simpl; [reflexivity | rewrite IH; reflexivity]. Qed.

Lemma prefix_append (sub s : string) :
  String.prefix sub s = true <-> exists post, s = String.append sub post.
Proof.
  revert s. induction sub as [|a sub IH]; intros s.
  - destruct s; simpl; (split; [intros _; eexists; reflexivity | reflexivity]).
  - destruct s as [|b s]; simpl.
    + split; [discriminate | intros [post H]; discriminate].
    + destruct (ascii_dec a b) as [->|Hne].
      * rewrite IH. split; intros [post H]; exists post; congruence.
      * split; [discriminate | intros [post H]; congruence].
Qed.

Lemma drop_append (pre s : string) :
  Adapter.drop (String.length pre) (String.append pre s) = s.
Proof. induction pre as [|x pre IH]; simpl; [destruct s; reflexivity | exact IH]. Qed.

Lemma find_from_eq (sub s : string) (i : Z) :
  Adapter.find_from sub s i =
  if String.prefix sub s then i
  else match s with
       | EmptyString => -1
       | String _ r => Adapter.find_from sub r (i + 1)
       end.
Proof. destruct s; reflexivity. Qed.

(** [find_from] returns -1 when [sub] does not occur, and otherwise the
    start of the first occurrence. *)
Lemma find_from_spec (sub s : string) : forall i,
  (Adapter.find_from sub s i = -1 /\
   forall a b, s <> String.append a (String.append sub b)) \/
  (exists pre post,
     s = String.append pre (String.append sub post) /\
     Adapter.find_from sub s i = i + Z.of_nat (String.length pre) /\
     forall a b, s = String.append a (String.append sub b) ->
                 (String.length pre <= String.length a)%nat).
Proof.
  induction s as [|c r IH]; intros i; rewrite find_from_eq.
  - destruct (String.prefix sub "") eqn:Hp.
    + right. apply prefix_append in Hp. destruct Hp as [post Hp].
      exists "", post. simpl. repeat split; [exact Hp | lia | intros; lia].
    + left. split; [reflexivity|]. intros a b H.
      destruct a; [|discriminate]. simpl in H.
      assert (String.prefix sub "" = true) as X
        by (apply prefix_append; exists b; exact H).
      congruence.
  - destruct (String.prefix sub (String c r)) eqn:Hp.
    + right. apply prefix_append in Hp. destruct Hp as [post Hp].
      exists "", post. simpl. repeat split; [exact Hp | lia | intros; lia].
    + assert (forall a b, String c r = String.append a (String.append sub b) ->
                exists a', a = String c a' /\
                           r = String.append a' (String.append sub b)) as Hhead.
      { intros a b H. destruct a as [|x a'].
        - simpl in H.
          assert (String.prefix sub (String c r) = true) as X
            by (apply prefix_append; exists b; exact H).
          congruence.
        - simpl in H. injection H as <- H. exists a'. split; [reflexivity | exact H]. }
      destruct (IH (i + 1)) as [[Hf Hno] | (pre & post & Hs & Hf & Hmin)].
      * left. split; [exact Hf|]. intros a b H.
        destruct (Hhead a b H) as (a' & _ & Hr). exact (Hno a' b Hr).
      * right. exists (String c pre), post. simpl.
        split; [rewrite Hs; reflexivity|]. split; [lia|].
        intros a b H. destruct (Hhead a b H) as (a' & -> & Hr).
        simpl. specialize (Hmin a' b Hr). lia.
Qed.

End Strings.

Example find_examples :
  Adapter.find "noise<tree a='1'/>" "<tree" = 5 /\
  Adapter.find "noise" "<tree" = -1 /\
  Adapter.find "" "" = 0 /\
  Adapter.skip_preamble "connecting...<tree ip='1.2.3.4'/>" = "<tree ip='1.2.3.4'/>".
Proof. repeat split; reflexivity. Qed.

(** X10: what [run_util_tree] hands to the XML parser is a suffix of
    the output of the utility.  When the output holds no ["<tree"] it is
    the whole output; otherwise it begins with ["<tree"], and what was
    cut off in front is shorter than the text in front of any occurrence
    of ["<tree"]: the cut is at the first one.  Cutting twice gives
    nothing more. *)
Theorem preamble_skipped (out : string) :
  exists pre,
    out = String.append pre (Adapter.skip_preamble out) /\
    (((forall a b, out <> String.append a (String.append "<tree" b)) /\
      pre = "") \/
     (String.prefix "<tree" (Adapter.skip_preamble out) = true /\
      forall a b, out = String.append a (String.append "<tree" b) ->
                  (String.length pre <= String.length a)%nat)) /\
    Adapter.skip_preamble (Adapter.skip_preamble out) = Adapter.skip_preamble out.
Proof.
  destruct (find_from_spec "<tree" out 0)
    as [[Hf Hno] | (pre & post & Hs & Hf & Hmin)].
  - assert (Adapter.skip_preamble out = out) as E
      by (unfold Adapter.skip_preamble, Adapter.find; rewrite Hf; reflexivity).
    rewrite !E. exists "". split; [reflexivity|].
    split; [left; split; [exact Hno | reflexivity] | reflexivity].
  - assert (Adapter.skip_preamble out = String.append "<tree" post) as E.
    { unfold Adapter.skip_preamble, Adapter.find. rewrite Hf. simpl Z.add.
      assert (negb (Z.of_nat (String.length pre) =? -1) = true) as ->
        by (apply negb_true_iff, Z.eqb_neq; lia).
      unfold Adapter.slice_from.
      assert ((Z.of_nat (String.length pre) <? 0) = false) as ->
        by (apply Z.ltb_ge; lia).
      rewrite Nat2Z.id. rewrite Hs at 1. apply drop_append. }
    rewrite !E. exists pre. split; [exact Hs|]. split.
    + right. split; [apply prefix_append; exists post; reflexivity | exact Hmin].
    + unfold Adapter.skip_preamble, Adapter.find. rewrite find_from_eq.
      assert (String.prefix "<tree" (String.append "<tree" post) = true) as ->
        by (apply prefix_append; exists post; reflexivity).
      reflexivity.
Qed.

(** ** The records of an answer *)

Example splitlines_examples :
  Adapter.splitlines (String "a" (String "010" (String "010" (String "b" "")))) =
    ["a"; ""; "b"] /\
  Adapter.splitlines (String "a" (String "013" (String "010" (String "b" (String "010" ""))))) =
    ["a"; "b"] /\
  Adapter.splitlines (String "010" "") = [""] /\
  Adapter.splitlines "" = [] /\
  Adapter.splitlines "a" = ["a"].
Proof. repeat split; reflexivity. Qed.

Section Items.

Variable fromstring : string -> result Adapter.element.

Lemma collect_ok lines : forall acc items,
  Adapter.collect fromstring lines acc = Ok items <->
  exists new,
    items = acc ++ new /\
    Forall2 (fun line it => fromstring line = Ok it)
            (filter Adapter.is_item_line lines) new.
Proof.
  induction lines as [|line later IH]; intros acc items; simpl.
  - split.
    + intros [= <-]. exists []. split; [symmetry; apply app_nil_r | constructor].
    + intros (new & -> & H). inversion H. rewrite app_nil_r. reflexivity.
  - destruct (Adapter.is_item_line line).
    + destruct (fromstring line) as [it|e] eqn:Hp.
      * rewrite IH. split.
        -- intros (new & -> & H). exists (it :: new).
           split; [rewrite <- app_assoc; reflexivity | constructor; assumption].
        -- intros (new & -> & H). inversion H as [|x y l l' Hx Hl]; subst.
           assert (y = it) as -> by congruence.
           exists l'. split; [rewrite <- app_assoc; reflexivity | exact Hl].
      * split; [discriminate|]. intros (new & _ & H).
        inversion H; subst. congruence.
    + apply IH.
Qed.

Lemma collect_raise lines : forall acc e,
  Adapter.collect fromstring lines acc = Raise e <->
  exists parsed line later,
    filter Adapter.is_item_line lines = parsed ++ line :: later /\
    (forall x, In x parsed -> exists it, fromstring x = Ok it) /\
    fromstring line = Raise e.
Proof.
  induction lines as [|line later IH]; intros acc e; simpl.
  - split; [discriminate|]. intros (p & l & r & H & _). destruct p; discriminate.
  - destruct (Adapter.is_item_line line).
    + destruct (fromstring line) as [it|e'] eqn:Hp.
      * rewrite IH. split.
        -- intros (p & l & r & Hf & Hall & Hl). exists (line :: p), l, r.
           split; [simpl; rewrite Hf; reflexivity|]. split; [|exact Hl].
           intros x [<- | Hx]; [exists it; exact Hp | apply Hall; exact Hx].
        -- intros (p & l & r & Hf & Hall & Hl). destruct p as [|x p].
           ++ simpl in Hf. injection Hf as <- _. congruence.
           ++ simpl in Hf. injection Hf as <- Hf. exists p, l, r.
              split; [exact Hf|]. split; [|exact Hl].
              intros y Hy. apply Hall. right; exact Hy.
      * split.
        -- intros [= <-]. exists [], line, (filter Adapter.is_item_line later).
           split; [reflexivity|]. split; [intros x []|exact Hp].
        -- intros (p & l & r & Hf & Hall & Hl). destruct p as [|x p].
           ++ simpl in Hf. injection Hf as <- _. congruence.
           ++ simpl in Hf. injection Hf as <- _.
              destruct (Hall line (or_introl eq_refl)) as [it Hit]. congruence.
    + apply IH.
Qed.

End Items.

(** X11: [run_util_items] returns normally exactly when every line of
    the output that starts with ["<item"] parses, and then returns the
    parsed records of those lines, in the order of the lines; it raises
    exactly when one of those lines fails to parse, with the exception
    of the first that fails. *)
Theorem items_of_lines (fromstring : string -> result Adapter.element)
  (out : string) :
  (forall items,
     Adapter.run_util_items fromstring (Ok out) = Ok items <->
     Forall2 (fun line it => fromstring line = Ok it)
             (filter Adapter.is_item_line (Adapter.splitlines out)) items) /\
  (forall e,
     Adapter.run_util_items fromstring (Ok out) = Raise e <->
     exists parsed line later,
       filter Adapter.is_item_line (Adapter.splitlines out) =
         parsed ++ line :: later /\
       (forall x, In x parsed -> exists it, fromstring x = Ok it) /\
       fromstring line = Raise e).
Proof.
  unfold Adapter.run_util_items. split.
  - intros items. rewrite collect_ok. simpl. split.
    + intros (new & -> & H). exact H.
    + intros H. exists items. split; [reflexivity | exact H].
  - intros e. apply collect_raise.
Qed.

(** X12: a line that does not start with ["<item"] never reaches the XML
    parser: two parsers that agree on the lines starting with ["<item"]
    give the same result, whatever they would do with the other lines. *)
Theorem noise_lines_ignored (f g : string -> result Adapter.element)
  (run_util : result string) :
  (forall line, Adapter.is_item_line line = true -> f line = g line) ->
  Adapter.run_util_items f run_util = Adapter.run_util_items g run_util.
Proof.
  intros H. unfold Adapter.run_util_items. destruct run_util as [out|e]; [|reflexivity].
  generalize (@nil Adapter.element).
  induction (Adapter.splitlines out) as [|line later IH]; intros acc; simpl;
    [reflexivity|].
  destruct (Adapter.is_item_line line) eqn:Hl; [|apply IH].
  rewrite <- (H line Hl). destruct (f line); [apply IH | reflexivity].
Qed.

Lemma noise_lines_ignored_witness :
  let f := fun _ : string => @Ok Adapter.element [("per", "100%")] in
  let g := fun line => if Adapter.is_item_line line
                       then @Ok Adapter.element [("per", "100%")]
                       else Raise ParseError in
  (forall line, Adapter.is_item_line line = true -> f line = g line) /\
  Adapter.run_util_items f (Ok "<item per='100%'/>") =
  Adapter.run_util_items g (Ok "<item per='100%'/>").
Proof.
  intros f g.
  assert (forall line, Adapter.is_item_line line = true -> f line = g line) as H
    by (intros line Hl; unfold f, g; rewrite Hl; reflexivity).
  split; [exact H|].
  exact (noise_lines_ignored f g (Ok "<item per='100%'/>") H).
Defined.

(** ** The device *)

Lemma attr_is_true (a : option string) (v : string) :
  attr_is a v = true <-> a = Some v.
Proof.
  unfold attr_is. destruct a as [x|]; [|split; discriminate].
  rewrite String.eqb_eq. split; congruence.
Qed.

(** X13: the device id is built from the first listed device whose
    nickname is the configured device name, by putting ["5c0b"] in front
    of its identifier and ["4b5z"] behind; devices listed before it have
    another nickname or none.  The program exits, with a message naming
    the device, exactly when no listed device has the nickname; and it
    fails with [TypeError] when the first device with the nickname has no
    identifier, whatever is listed after it. *)
Theorem device_found (devices : list Adapter.element) (device_name : string) :
  match Adapter.find_device devices device_name with
  | Adapter.Started id =>
      exists before device after raw,
        devices = before ++ device :: after /\
        (forall x, In x before -> Adapter.get x "nick_name" <> Some device_name) /\
        Adapter.get device "nick_name" = Some device_name /\
        Adapter.get device "device_id" = Some raw /\
        id = String.append "5c0b" (String.append raw "4b5z")
  | Adapter.Exits message =>
      (forall x, In x devices -> Adapter.get x "nick_name" <> Some device_name) /\
      message = String.append "Failed to map device name "
                  (String.append device_name " to device ID.")
  | Adapter.Fails e =>
      e = TypeError /\
      exists before device after,
        devices = before ++ device :: after /\
        (forall x, In x before -> Adapter.get x "nick_name" <> Some device_name) /\
        Adapter.get device "nick_name" = Some device_name /\
        Adapter.get device "device_id" = None
  end.
Proof.
  induction devices as [|d later IH]; simpl.
  - split; [intros x [] | reflexivity].
  - destruct (attr_is (Adapter.get d "nick_name") device_name) eqn:Hn.
    + apply attr_is_true in Hn.
      destruct (Adapter.get d "device_id") as [raw|] eqn:Hid.
      * exists [], d, later, raw. repeat split; try assumption. intros x [].
      * split; [reflexivity|]. exists [], d, later.
        repeat split; try assumption. intros x [].
    + assert (Adapter.get d "nick_name" <> Some device_name) as Hne.
      { intros H. apply attr_is_true in H. congruence. }
      destruct (Adapter.find_device later device_name) as [id|msg|e].
      * destruct IH as (b & dv & a & raw & -> & Hb & H1 & H2 & H3).
        exists (d :: b), dv, a, raw. repeat split; try assumption.
        intros x [<- | Hx]; [exact Hne | apply Hb; exact Hx].
      * destruct IH as [Hall ->]. split; [|reflexivity].
        intros x [<- | Hx]; [exact Hne | apply Hall; exact Hx].
      * destruct IH as (-> & b & dv & a & -> & Hb & H1 & H2).
        split; [reflexivity|]. exists (d :: b), dv, a.
        repeat split; try assumption.
        intros x [<- | Hx]; [exact Hne | apply Hb; exact Hx].
Qed.

Example device_examples :
  Adapter.find_device [[("nick_name", "old"); ("device_id", "111")];
                       [("nick_name", "nas"); ("device_id", "abc")];
                       [("nick_name", "nas"); ("device_id", "zzz")]] "nas" =
    Adapter.Started "5c0babc4b5z" /\
  Adapter.find_device [[("nick_name", "old"); ("device_id", "111")]] "nas" =
    Adapter.Exits "Failed to map device name nas to device ID.".
Proof. split; reflexivity. Qed.

(** * The report *)

Section Finished.

Variable O : oracle.
Variable excludes : list path.

Lemma after_walk_finished s s' :
  after_walk O s = (Ok tt, s') ->
  exists before, logfile s' = before ++ [finished_line s'].
Proof.
  unfold after_walk, finished_line.
  destruct (Nat.ltb 0 (List.length (files s))).
  - destruct (upload_files O s) as [[[]|e] s1]; [|discriminate].
    destruct (files_failed_to_backup s1 =? 0) eqn:E; intros [= <-]; simpl;
      rewrite E; eexists; reflexivity.
  - destruct (files_failed_to_backup s =? 0) eqn:E; intros [= <-]; simpl;
      rewrite E; eexists; reflexivity.
Qed.

Lemma step_finished s : finished_inv s -> finished_inv (step O excludes s).
Proof.
  unfold finished_inv, step. destruct (run_status s) eqn:Hst.
  - intros _. destruct (pop (includes s)) as [[rest popped]|].
    + destruct (iteration O excludes rest popped s) as [r s1] eqn:E.
      apply iteration_queue in E. destruct E as (Hs1 & _).
      destruct r as [[]|e]; simpl; [rewrite Hs1, Hst|]; discriminate.
    + destruct (after_walk O s) as [[[]|e] s1] eqn:E; simpl; [|discriminate].
      intros _. apply after_walk_finished in E. exact E.
  - intros H. rewrite Hst. exact H.
  - intros H. rewrite Hst. exact H.
Qed.

Lemma steps_finished fuel : forall s,
  finished_inv s -> finished_inv (steps O excludes fuel s).
Proof.
  induction fuel as [|n IH]; simpl; intros s H; [exact H|].
  apply IH, step_finished, H.
Qed.

End Finished.

(** X14: for a run that has returned, the figures of the summary add
    up, and the subject of the mail agrees with the last line of the log:
    it is the successful one exactly when no file failed, and the log then
    ends with the line of a successful backup; otherwise it names the
    number of failed files, which is positive and at most the number of
    files considered, and the log ends with the line of an incomplete
    backup with that number. *)
Theorem report_matches_log (O : oracle) (c : config) (fuel : nat)
  (quota : result Adapter.element) (figures : summary) (subj : subject) :
  let s := run_backup O c fuel in
  run_status s = Returned ->
  report O quota s = Ok (figures, subj) ->
  summary_considered figures =
    summary_backed_up_now figures + summary_already_present figures +
    summary_failed figures /\
  match subj with
  | SuccessfulBackupSummary =>
      summary_failed figures = 0 /\
      exists before,
        logfile s = before ++ [FinishedSuccessful (summary_backed_up_now figures)]
  | IncompleteBackupSummary failed considered =>
      failed = summary_failed figures /\
      considered = summary_considered figures /\
      0 < failed <= considered /\
      exists before,
        logfile s =
        before ++ [FinishedIncomplete (summary_backed_up_now figures) failed]
  end.
Proof.
  intros s Hst Hrep.
  assert (balanced s) as (Hsum & Hb & Hp & Hf).
  { assert (counters_inv s) as H by (apply steps_counters, start_counters).
    unfold counters_inv in H. rewrite Hst in H. exact H. }
  assert (finished_inv s) as Hfin
    by (apply steps_finished; intros H; discriminate).
  destruct (Hfin Hst) as [before Hlog]. unfold finished_line in Hlog.
  revert Hrep. unfold report.
  destruct quota as [quota|e]; [|discriminate].
  destruct (int O (Adapter.get quota "usedquota")) as [used|e]; [|discriminate].
  destruct (int O (Adapter.get quota "totalquota")) as [total|e]; [|discriminate].
  cbv zeta. destruct (Z.eqb_spec (files_failed_to_backup s) 0) as [Hz|Hnz];
    intros [= <- <-]; simpl.
  - split; [exact Hsum|]. split; [exact Hz|]. exists before. exact Hlog.
  - split; [exact Hsum|]. repeat split; try lia. exists before. exact Hlog.
Qed.

Lemma report_matches_log_witness :
  let s := run_backup Demo.demo (mkconfig ["/a"] []) 5 in
  let quota := Ok [("usedquota", "3221225472"); ("totalquota", "10737418240")] in
  run_status s = Returned /\
  report Demo.demo quota s = Ok (mksummary 2 1 1 0 3 10, SuccessfulBackupSummary) /\
  exists before, logfile s = before ++ [FinishedSuccessful 1].
Proof.
  intros s quota.
  assert (run_status s = Returned) as H1 by (vm_compute; reflexivity).
  assert (report Demo.demo quota s =
          Ok (mksummary 2 1 1 0 3 10, SuccessfulBackupSummary)) as H2
    by (vm_compute; reflexivity).
  split; [exact H1|]. split; [exact H2|].
  exact (proj2 (proj2 (report_matches_log Demo.demo (mkconfig ["/a"] []) 5 quota
                         (mksummary 2 1 1 0 3 10) SuccessfulBackupSummary H1 H2))).
Defined.

(** X15: the quota figures of the summary are the byte counts of the
    answer in whole GiB, rounded down: each is within one GiB below the
    byte count, also for a negative count, and the used figure is at
    most the total figure when the used bytes are at most the total
    bytes. *)
Theorem quota_rounded_down (O : oracle) (quota : Adapter.element) (s : state)
  (figures : summary) (subj : subject) (used total : Z) :
  report O (Ok quota) s = Ok (figures, subj) ->
  int O (Adapter.get quota "usedquota") = Ok used ->
  int O (Adapter.get quota "totalquota") = Ok total ->
  1073741824 * quota_used figures <= used < 1073741824 * (quota_used figures + 1) /\
  1073741824 * quota_total figures <= total
    < 1073741824 * (quota_total figures + 1) /\
  (used <= total -> quota_used figures <= quota_total figures).
Proof.
  unfold report. intros Hrep Hu Ht. rewrite Hu, Ht in Hrep. cbv zeta in Hrep.
  injection Hrep as <- _. cbn [quota_used quota_total].
  rewrite !Z.shiftr_div_pow2 by lia.
  replace (2 ^ 30) with 1073741824 by reflexivity.
  pose proof (Z.mul_div_le used 1073741824 ltac:(lia)).
  pose proof (Z.mul_succ_div_gt used 1073741824 ltac:(lia)).
  pose proof (Z.mul_div_le total 1073741824 ltac:(lia)).
  pose proof (Z.mul_succ_div_gt total 1073741824 ltac:(lia)).
  repeat split; lia.
Qed.

Lemma quota_rounded_down_witness :
  let quota := [("usedquota", "3221225473"); ("totalquota", "10737418240")] in
  let s := start (mkconfig [] []) in
  report Demo.demo (Ok quota) s = Ok (mksummary 0 0 0 0 3 10, SuccessfulBackupSummary) /\
  int Demo.demo (Adapter.get quota "usedquota") = Ok 3221225473 /\
  int Demo.demo (Adapter.get quota "totalquota") = Ok 10737418240 /\
  1073741824 * 3 <= 3221225473 < 1073741824 * (3 + 1).
Proof.
  intros quota s.
  assert (report Demo.demo (Ok quota) s =
          Ok (mksummary 0 0 0 0 3 10, SuccessfulBackupSummary)) as H1
    by (vm_compute; reflexivity).
  assert (int Demo.demo (Adapter.get quota "usedquota") = Ok 3221225473) as H2
    by (vm_compute; reflexivity).
  assert (int Demo.demo (Adapter.get quota "totalquota") = Ok 10737418240) as H3
    by (vm_compute; reflexivity).
  split; [exact H1|]. split; [exact H2|]. split; [exact H3|].
  exact (proj1 (quota_rounded_down Demo.demo quota s (mksummary 0 0 0 0 3 10)
                  SuccessfulBackupSummary 3221225473 10737418240 H1 H2 H3)).
Defined.

(** * More on a batch response *)

Section Response.

Variable O : oracle.

Lemma upload_items_aborted pre : forall it post last s e,
  well_formed O pre ->
  in_range O pre ->
  Z.abs last < 2 ^ 1022 ->
  is_complete it = true ->
  int O (tottrf_sz it) = Raise e ->
  exists s',
    upload_items O (pre ++ it :: post) last s = (Raise e, s') /\
    files_considered_for_backup s' =
      files_considered_for_backup s + count is_complete pre /\
    files_backed_up_now s' =
      files_backed_up_now s +
      count (fun it => is_complete it && is_transfer it) pre /\
    files_already_present s' =
      files_already_present s +
      count (fun it => is_complete it && negb (is_transfer it) && is_in_sync it)
            pre /\
    files_failed_to_backup s' =
      files_failed_to_backup s +
      count (fun it => is_complete it && negb (is_transfer it) && negb (is_in_sync it))
            pre.
Proof.
  induction pre as [|x pre IH]; intros it post last s e Hwf Hin Hlast Hc Hint.
  - exists s. simpl. rewrite (upload_item_rejected O it last s e Hc Hint).
    unfold count. simpl. rewrite !Z.add_0_r. repeat split.
  - apply well_formed_cons in Hwf. destruct Hwf as [Hx Hpre].
    apply in_range_cons in Hin. destruct Hin as [Hrange Hin].
    rewrite !count_cons. simpl app. simpl upload_items.
    destruct (is_complete x) eqn:Hcx.
    + destruct (Hx eq_refl) as [t Ht].
      pose proof (Hrange t eq_refl Ht) as Htot.
      destruct (upload_item_safe O x last s t Hcx Ht) as [s1 E1].
      { rewrite pow_1023. lia. }
      destruct (upload_item_ok O x last s t s1 Hcx E1)
        as (_ & _ & Hco & Hb & Hp & Hf & _).
      rewrite E1.
      destruct (IH it post t s1 e Hpre Hin Htot Hc Hint)
        as (s' & E & Hco' & Hb' & Hp' & Hf').
      exists s'. split; [exact E|].
      rewrite Hco', Hb', Hp', Hf', Hco, Hb, Hp, Hf. cbn [andb negb].
      destruct (is_transfer x), (is_in_sync x); cbn [andb negb];
        repeat split; lia.
    + rewrite (upload_item_incomplete O x last s Hcx).
      destruct (IH it post last s e Hpre Hin Hlast Hc Hint)
        as (s' & E & Hco' & Hb' & Hp' & Hf').
      exists s'. split; [exact E|].
      rewrite Hco', Hb', Hp', Hf'. cbn [andb]. repeat split; lia.
Qed.

Lemma last_cons_default (x : Z) (l : list Z) (d d' : Z) :
  last (x :: l) d = last (x :: l) d'.
Proof.
  revert x. induction l as [|y l IH]; intros x; [reflexivity|].
  change (last (y :: l) d = last (y :: l) d'). apply IH.
Qed.

Lemma total_size_differences totals : forall previous,
  total_size (differences previous totals) = last totals previous - previous.
Proof.
  induction totals as [|t r IH]; intros previous.
  - unfold total_size. simpl. lia.
  - change (total_size (differences previous (t :: r)))
      with ((t - previous) + total_size (differences t r)).
    rewrite IH. destruct r as [|x r]; [simpl; lia|].
    change (last (t :: x :: r) previous) with (last (x :: r) previous).
    rewrite (last_cons_default x r t previous). lia.
Qed.

End Response.

(** X16: records whose completion attribute is not ["100%"] have no
    effect at all: processing a response and processing the same response
    without them leave the same state and the same outcome, whatever
    those records hold, since none of their other attributes is read. *)
Theorem incomplete_records_ignored (O : oracle) (items : list item) (last : Z)
  (s : state) :
  upload_items O items last s = upload_items O (filter is_complete items) last s.
Proof.
  revert last s. induction items as [|it rest IH]; intros last s; [reflexivity|].
  simpl. destruct (is_complete it) eqn:Hc.
  - simpl. destruct (upload_item O it last s) as [[last'|e] s1];
      [apply IH | reflexivity].
  - rewrite (upload_item_incomplete O it last s Hc). apply IH.
Qed.

(** X17: when the running total of a complete record is not accepted by
    [int], and the records in front of it are well formed with running
    totals that fit a float, [upload_files] raises that exception at this
    record: the queue is empty, the batch is on record, and the counters
    have been moved by the complete records in front of it and by nothing
    behind it; nothing is rolled back. *)
Theorem batch_aborted_midway (O : oracle) (s : state)
  (before : list item) (it : item) (after : list item) (e : exn) :
  run_util_items O (List.length (uploaded s)) (files s) =
    Ok (before ++ it :: after) ->
  well_formed O before ->
  in_range O before ->
  is_complete it = true ->
  int O (tottrf_sz it) = Raise e ->
  exists s',
    upload_files O s = (Raise e, s') /\
    files s' = [] /\ uploaded s' = uploaded s ++ [files s] /\
    files_considered_for_backup s' =
      files_considered_for_backup s + count is_complete before /\
    files_backed_up_now s' =
      files_backed_up_now s +
      count (fun it => is_complete it && is_transfer it) before /\
    files_already_present s' =
      files_already_present s +
      count (fun it => is_complete it && negb (is_transfer it) && is_in_sync it)
            before /\
    files_failed_to_backup s' =
      files_failed_to_backup s +
      count (fun it => is_complete it && negb (is_transfer it) && negb (is_in_sync it))
            before.
Proof.
  intros Htool Hwf Hin Hc Hint.
  assert (Z.abs 0 < 2 ^ 1022) as H0
    by (change (Z.abs 0) with 0; apply Z.pow_pos_nonneg; lia).
  destruct (upload_items_aborted O before it after 0
              (record_upload (files s) (set_files [] s)) e Hwf Hin H0 Hc Hint)
    as (s' & E & Hco & Hb & Hp & Hf).
  exists s'.
  assert (upload_files O s = (Raise e, s')) as Hup.
  { unfold upload_files. cbv zeta.
    change (List.length (uploaded (set_files [] s))) with (List.length (uploaded s)).
    rewrite Htool. exact E. }
  split; [exact Hup|].
  apply upload_files_frame in Hup. destruct Hup as (_ & _ & Hfi & Hu & _).
  split; [exact Hfi|]. split; [exact Hu|].
  simpl in Hco, Hb, Hp, Hf. repeat split; assumption.
Qed.

Lemma batch_aborted_midway_witness :
  let good := mkitem (Some "100%") (Some "a/f1.txt") (Some "FULL") (Some "1kB/s")
                     (Some "1000") in
  let bad := mkitem (Some "100%") (Some "a/f2.txt") (Some "FULL") (Some "1kB/s")
                    None in
  let O := mkoracle Demo.demo_resolve Demo.demo_is_file Demo.demo_is_dir
                    Demo.demo_iterdir (fun _ _ => Ok [good; bad; good])
                    Demo.int_decimal in
  let s := set_files [Path "/a/f1.txt"] (start (mkconfig [] [])) in
  run_util_items O (List.length (uploaded s)) (files s) = Ok ([good] ++ bad :: [good]) /\
  well_formed O [good] /\ in_range O [good] /\ is_complete bad = true /\
  int O (tottrf_sz bad) = Raise TypeError /\
  exists s',
    upload_files O s = (Raise TypeError, s') /\
    files s' = [] /\
    files_considered_for_backup s' = files_considered_for_backup s + 1.
Proof.
  intros good bad O s.
  assert (well_formed O [good]) as Hwf.
  { intros x [<- | []] _. eexists. vm_compute. reflexivity. }
  assert (in_range O [good]) as Hin.
  { intros total [<- | []]. vm_compute. reflexivity. }
  split; [reflexivity|]. split; [exact Hwf|]. split; [exact Hin|].
  split; [reflexivity|]. split; [reflexivity|].
  destruct (batch_aborted_midway O s [good] bad [good] TypeError
              eq_refl Hwf Hin eq_refl eq_refl) as (s' & E & Hf & _ & Hco & _).
  exists s'. split; [exact E|]. split; [exact Hf | exact Hco].
Defined.

(** X18: for a well-formed response whose running totals fit a float,
    [upload_files] returns normally and the sizes derived for the complete
    records of the batch add up to the running total of the last complete
    record, and to zero when there is none. *)
Theorem sizes_add_up (O : oracle) (s : state) (items : list item) :
  run_util_items O (List.length (uploaded s)) (files s) = Ok items ->
  well_formed O items ->
  in_range O items ->
  exists s' sizes,
    upload_files O s = (Ok tt, s') /\
    transfer_sizes s' = transfer_sizes s ++ sizes /\
    total_size sizes = last (complete_totals O items) 0.
Proof.
  intros Htool Hwf Hin. rewrite (upload_files_answered O s items Htool).
  assert (Z.abs 0 < 2 ^ 1022) as H0
    by (change (Z.abs 0) with 0; apply Z.pow_pos_nonneg; lia).
  destruct (upload_items_complete O items 0
              (record_upload (files s) (set_files [] s)) Hwf Hin H0)
    as (s' & E & Hsz & _).
  simpl in Hsz.
  exists s', (differences 0 (complete_totals O items)).
  split; [exact E|]. split; [exact Hsz|].
  rewrite total_size_differences. lia.
Qed.

Lemma sizes_add_up_witness :
  let s := set_files [Path "/a/f1.txt"; Path "/a/f2.txt"] (start (mkconfig [] [])) in
  run_util_items Demo.demo (List.length (uploaded s)) (files s) = Ok Demo.demo_items /\
  well_formed Demo.demo Demo.demo_items /\
  in_range Demo.demo Demo.demo_items /\
  exists s' sizes,
    upload_files Demo.demo s = (Ok tt, s') /\
    transfer_sizes s' = transfer_sizes s ++ sizes /\
    total_size sizes = 1500.
Proof.
  intros s. split; [reflexivity|]. split; [exact demo_items_well_formed|].
  split; [exact demo_items_in_range|].
  destruct (sizes_add_up Demo.demo s Demo.demo_items eq_refl demo_items_well_formed
              demo_items_in_range)
    as (s' & sizes & E & Hsz & Hsum).
  exists s', sizes. split; [exact E|]. split; [exact Hsz | exact Hsum].
Defined.

(** * More on the exclude filter *)

Lemma descendant_trans (p q e : path) :
  descendant p q -> descendant q e -> descendant p e.
Proof.
  intros (Hr1 & s1 & Hn1 & H1) (Hr2 & s2 & Hn2 & H2).
  split; [congruence|]. exists (s2 ++ s1). split.
  - destruct s2; [contradiction | discriminate].
  - rewrite H1, H2. symmetry. apply app_assoc.
Qed.

(** X19: exclusion goes down the tree: when a candidate is skipped for
    the excludes, so is every candidate that is a descendant of it. *)
Theorem skipped_below (excludes : list path) (candidate below : path) :
  is_skipped excludes candidate = true ->
  descendant below candidate ->
  is_skipped excludes below = true.
Proof.
  rewrite !is_skipped_iff. intros (e & He & Hm) Hd. exists e. split; [exact He|].
  right. destruct Hm as [-> | Hm]; [exact Hd | eapply descendant_trans; eassumption].
Qed.

Lemma skipped_below_witness :
  is_skipped [Path "/a"] (Path "/a/b") = true /\
  descendant (Path "/a/b/c.txt") (Path "/a/b") /\
  is_skipped [Path "/a"] (Path "/a/b/c.txt") = true.
Proof.
  assert (descendant (Path "/a/b/c.txt") (Path "/a/b")) as Hd.
  { split; [reflexivity|]. exists ["c.txt"]. split; [discriminate | reflexivity]. }
  split; [reflexivity|]. split; [exact Hd|].
  exact (skipped_below [Path "/a"] (Path "/a/b") (Path "/a/b/c.txt") eq_refl Hd).
Defined.
